(** * beforeiplay-scraper: the crawl / sanitize / persist pipeline

    A shallow embedding of [src/beforeiplay_scraper.py].

    - Python [str] values are lists of Unicode code points ([pystr]);
      [len], slicing, [strip], [rsplit] and the two [re.sub] calls of
      [sanitize_filename] work on code points, as they do in Python.
    - The file system is a finite map from paths to nodes, the network and
      the disk are oracles that see the history of effects, and every
      effect the program performs is appended to a trace.
    - Console output ([print]) and the numeric value of the courtesy delay
      are not modelled. *)

From Stdlib Require Import Strings.Ascii Strings.String NArith.
From stdpp Require Import base option list gmap.

Local Open Scope N_scope.

(** ** Python strings *)

Module PyStr.

(** A Python [str]: the sequence of its code points. *)
Abbreviation pystr := (list N).

(** The [str] written by an ASCII literal. *)
Definition py (s : string) : pystr :=
  List.map N_of_ascii (list_ascii_of_string s).

(** [a <= b] on [str]: lexicographic order on code points. *)
Fixpoint str_leb (a b : pystr) : bool :=
  match a, b with
  | [], _ => true
  | _ :: _, [] => false
  | x :: a', y :: b' =>
      if x <? y then true else if x =? y then str_leb a' b' else false
  end.

(** [c in chars] for a character and a set of characters given as a [str]. *)
Definition char_in (chars : pystr) (c : N) : bool :=
  existsb (N.eqb c) chars.

(** [s.lstrip(chars)] *)
Fixpoint lstrip (chars s : pystr) : pystr :=
  match s with
  | [] => []
  | c :: r => if char_in chars c then lstrip chars r else s
  end.

(** [s.rstrip(chars)] *)
Definition rstrip (chars s : pystr) : pystr :=
  rev (lstrip chars (rev s)).

(** [s.strip(chars)] *)
Definition strip (chars s : pystr) : pystr :=
  rstrip chars (lstrip chars s).

(** The part of [s] before the last occurrence of [sep], when there is
    one. *)
Fixpoint before_last (sep : N) (s : pystr) : option pystr :=
  match s with
  | [] => None
  | c :: r =>
      match before_last sep r with
      | Some p => Some (c :: p)
      | None => if c =? sep then Some [] else None
      end
  end.

(** [s.rsplit(sep, 1)[0]] for a one-character separator: the text before
    the last [sep], or all of [s] when [sep] does not occur. *)
Definition rsplit1_head (sep : N) (s : pystr) : pystr :=
  default s (before_last sep s).

(** Code points for which [str.isspace()] holds; [s.strip()] without an
    argument removes these. *)
Definition is_space (c : N) : bool :=
  ((9 <=? c) && (c <=? 13)) || ((28 <=? c) && (c <=? 32))
  || (c =? 133) || (c =? 160) || (c =? 5760)
  || ((8192 <=? c) && (c <=? 8202))
  || (c =? 8232) || (c =? 8233) || (c =? 8239) || (c =? 8287)
  || (c =? 12288).

Fixpoint lstrip_ws (s : pystr) : pystr :=
  match s with
  | [] => []
  | c :: r => if is_space c then lstrip_ws r else s
  end.

(** [s.strip()] *)
Definition strip_ws (s : pystr) : pystr :=
  rev (lstrip_ws (rev (lstrip_ws s))).

(** [str.upper()] on an ASCII code point. *)
Definition ascii_upper (c : N) : N :=
  if (97 <=? c) && (c <=? 122) then c - 32 else c.

(** [s.startswith(sep)] for a one-character [sep]. *)
Definition starts_with (sep : N) (s : pystr) : bool :=
  match s with
  | c :: _ => c =? sep
  | [] => false
  end.

(** [posixpath.join(a, b)]. *)
Definition os_path_join (a b : pystr) : pystr :=
  if starts_with 47 b then b
  else match last a with
       | None => b
       | Some c => if c =? 47 then a ++ b else a ++ 47 :: b
       end.

(** [s[:n]] for a Python integer [n]: a negative [n] counts from the end. *)
Definition slice_to {A} (n : Z) (l : list A) : list A :=
  if (n <? 0)%Z then take (length l - Z.to_nat (- n)) l
  else take (Z.to_nat n) l.

End PyStr.
Import PyStr.

(** ** [sanitize_filename] *)

Definition dot : N := 46.
Definition space : N := 32.
Definition underscore : N := 95.
Definition slash : N := 47.
Definition backslash : N := 92.

(** The character class of the first [re.sub]: less-than, greater-than,
    colon, double quote (code point 34), slash, backslash, bar, question
    mark and star. *)
Definition invalid_chars : pystr := py "<>:" ++ [34] ++ py "/\|?*".

Definition is_invalid (c : N) : bool := char_in invalid_chars c.

(** The first [re.sub] (line 67): every character of the class is deleted. *)
Definition remove_invalid (name : pystr) : pystr :=
  List.filter (fun c => negb (is_invalid c)) name.

(** [re.sub(r'\.\.', '_', name)]: the matches are found left to right and do
    not overlap, so each pair of periods met by the scan becomes one
    underscore and the scan resumes after the pair. *)
Fixpoint sub_dotdot (name : pystr) : pystr :=
  match name with
  | c1 :: ((c2 :: r) as t) =>
      if (c1 =? dot) && (c2 =? dot) then underscore :: sub_dotdot r
      else c1 :: sub_dotdot t
  | _ => name
  end.

Definition max_len : nat := 100.

Definition unknown_game : pystr := py "_unknown_game_".
Definition sanitized_empty : pystr := py "_sanitized_empty_".

(** A value passed as a title: [None] or a [str]. *)
Inductive pyval :=
| PyNone
| PyStr (s : pystr).

(** The three cleaning steps (lines 67 to 71). *)
Definition clean (name : pystr) : pystr :=
  strip (py ". ") (sub_dotdot (remove_invalid name)).

(** The length cap (lines 75 to 77). *)
Definition truncate (name : pystr) : pystr :=
  if Nat.ltb max_len (length name)
  then rsplit1_head space (take max_len name)
  else name.

Definition sanitize_str (name : pystr) : pystr :=
  match name with
  | [] => unknown_game
  | _ =>
      let name := remove_invalid name in
      let name := sub_dotdot name in
      let name := strip (py ". ") name in
      let name :=
        if Nat.ltb max_len (length name)
        then rsplit1_head space (take max_len name)
        else name in
      match name with
      | [] => sanitized_empty
      | _ => name
      end
  end.

Definition sanitize_filename (name : pyval) : pystr :=
  match name with
  | PyNone => unknown_game
  | PyStr s => sanitize_str s
  end.

(** ** The world: file system, network, disk and the trace of effects *)

Inductive node :=
| Dir
| File (text : pystr).

(** What [open(path, 'w')] followed by [f.write(text)] can do. A failure
    carries what it left at the path: [None] when the file was not created,
    [Some t] when it was created and holds [t]. *)
Inductive write_result :=
| Written
| IOFailed (partial : option pystr)
| OtherFailed (partial : option pystr).

Inductive event :=
| EvMakedirs (path : pystr)
| EvExists (path : pystr) (found : bool)
| EvFetch (url : pystr) (ok : bool)
| EvWrite (path : pystr) (text : pystr) (r : write_result)
| EvRemove (path : pystr) (ok : bool)
| EvSleep.

Record world := World {
  fs : gmap pystr node;
  trace : list event;
}.

(** A fetched page, as the three XPath queries of the program see it. *)
Record page := Page {
  first_heading : list pystr;
  parser_output : list pystr;
  content_text : list pystr;
}.

(** The behaviour of the network and of the disk: each answer may depend on
    everything that happened before. *)
Record env := Env {
  http_get : list event -> pystr -> option page;
  disk_write : list event -> pystr -> pystr -> write_result;
  disk_remove : list event -> pystr -> bool;
}.

(** Exceptions that leave the program uncaught. *)
Inductive exn :=
| FileExistsError (path : pystr).

(** Computations: a state monad over [world] with exceptions. *)
Definition M (A : Type) : Type := world -> (exn + A) * world.

#[global] Instance M_ret : MRet M := fun A x w => (inr x, w).

#[global] Instance M_bind : MBind M := fun A B f c w =>
  match c w with
  | (inl x, w') => (inl x, w')
  | (inr a, w') => f a w'
  end.

Definition log (ev : event) (w : world) : world :=
  World (fs w) (trace w ++ [ev]).

(** [os.makedirs(path, exist_ok=True)] on a file system kept as a map from
    whole paths to nodes. The call looks at the path itself: it raises when
    a regular file stands there, returns when a directory does, and enters
    the directory otherwise. The parents of the path are not entered, and
    the errors that the library raises on their account (a regular file
    among the parents, an empty path) or for lack of permission are outside
    this model: a run that enters a missing directory stands for a run in
    which the library could create it. *)
Definition os_makedirs (path : pystr) : M unit := fun w =>
  match fs w !! path with
  | Some (File _) => (inl (FileExistsError path), log (EvMakedirs path) w)
  | Some Dir => (inr (), log (EvMakedirs path) w)
  | None =>
      (inr (), log (EvMakedirs path) (World (<[path := Dir]> (fs w)) (trace w)))
  end.

(** [os.path.exists(path)] *)
Definition os_path_exists (path : pystr) : M bool := fun w =>
  let found := bool_decide (is_Some (fs w !! path)) in
  (inr found, log (EvExists path found) w).

(** [os.remove(path)]; [false] stands for an [OSError]. *)
Definition os_remove (e : env) (path : pystr) : M bool := fun w =>
  match fs w !! path with
  | Some (File _) =>
      if disk_remove e (trace w) path
      then (inr true, log (EvRemove path true) (World (delete path (fs w)) (trace w)))
      else (inr false, log (EvRemove path false) w)
  | _ => (inr false, log (EvRemove path false) w)
  end.

(** The [with open(...) as f: f.write(...)] block. *)
Definition write_file (e : env) (path text : pystr) : M write_result := fun w =>
  let r := disk_write e (trace w) path text in
  let fs' :=
    match r with
    | Written => <[path := File text]> (fs w)
    | IOFailed (Some t) | OtherFailed (Some t) => <[path := File t]> (fs w)
    | IOFailed None | OtherFailed None => fs w
    end in
  (inr r, log (EvWrite path text r) (World fs' (trace w))).

(** [fetch_html]: every exception is caught and turned into [None]. *)
Definition fetch_html (e : env) (url : pystr) : M (option page) := fun w =>
  let tree := http_get e (trace w) url in
  (inr tree, log (EvFetch url (bool_decide (is_Some tree))) w).

(** [time.sleep(delay)] *)
Definition time_sleep : M unit := fun w => (inr (), log EvSleep w).

(** ** The scraper *)

(** A catalog entry: the dict built by [get_game_links]. [gi_title] is
    [None] when the dict has no title key. *)
Record game_info := GameInfo {
  gi_url : pystr;
  gi_title : option pyval;
}.

(** [str(v)] as an f-string renders it. *)
Definition format (v : pyval) : pystr :=
  match v with
  | PyNone => py "None"
  | PyStr s => s
  end.

(** The local variables of [save_game_page_as_markdown] that are set before
    its first effect. *)
Record precomputed := Precomputed {
  original_title : pyval;
  filename_safe_title : pystr;
  target_subdir : pystr;
  output_dir : pystr;
  output_filepath : pystr;
}.

Section Scraper.

(** Python's upper-case mapping of the code points above ASCII, and the
    [markdownify] conversion: both belong to libraries. *)
Variable upper_non_ascii : N -> pystr.
Variable markdownify : pystr -> pystr.

Definition char_upper (c : N) : pystr :=
  if c <? 128 then [ascii_upper c] else upper_non_ascii c.

(** [s.upper()] *)
Definition str_upper (s : pystr) : pystr := flat_map char_upper s.

(** Lines 89 to 108 of [save_game_page_as_markdown]: the title, the file
    name, the bucket and the two paths, computed before any effect. *)
Definition save_precompute (game_info : game_info) (base_dir : pystr)
  : precomputed :=
  let original_title := default (PyStr (py "Unknown Title")) (gi_title game_info) in
  let temp_page_title := original_title in
  let filename_safe_title := sanitize_filename temp_page_title in
  let first_char :=
    match filename_safe_title with
    | c :: _ => str_upper [c]
    | [] => py "_"
    end in
  let target_subdir :=
    if str_leb (py "0") first_char && str_leb first_char (py "9") then py "0-9"
    else if str_leb (py "A") first_char && str_leb first_char (py "Z") then first_char
    else py "_" in
  let output_dir := os_path_join base_dir target_subdir in
  let output_filepath := os_path_join output_dir (filename_safe_title ++ py ".md") in
  Precomputed original_title filename_safe_title target_subdir output_dir
    output_filepath.

(** Lines 125 to 150: the text written for a fetched page. *)
Definition render (original_title : pyval) (tree : page) : pystr :=
  let title_element := first_heading tree in
  let page_title :=
    match title_element with
    | t :: _ => PyStr (strip_ws t)
    | [] => original_title
    end in
  let content_elements :=
    match parser_output tree with
    | [] => content_text tree
    | els => els
    end in
  match content_elements with
  | el :: _ => markdownify el
  | [] =>
      py "# " ++ format page_title ++ [10; 10]
        ++ py "Content could not be extracted."
  end.

(** [save_game_page_as_markdown]; the result is [(success, request_made)]. *)
Definition save_game_page_as_markdown (e : env) (game_info : game_info)
    (base_dir : pystr) : M (bool * bool) :=
  let game_url := gi_url game_info in
  let p := save_precompute game_info base_dir in
  _ ← os_makedirs (output_dir p);
  found ← os_path_exists (output_filepath p);
  if found : bool then mret (true, false) else
  tree ← fetch_html e game_url;
  match tree with
  | None => mret (false, true)
  | Some tree =>
      let markdown_content := render (original_title p) tree in
      r ← write_file e (output_filepath p) markdown_content;
      match r with
      | Written => mret (true, true)
      | IOFailed _ => _ ← os_remove e (output_filepath p); mret (false, true)
      | OtherFailed _ => mret (false, true)
      end
  end.

(** Lines 181 to 191 of [main]: the category named by the letter option. *)
Definition target_letter_category (letter : option pystr) : option pystr :=
  match letter with
  | None | Some [] => None
  | Some l =>
      let l := str_upper (strip_ws l) in
      if bool_decide (l = py "0") then Some (py "0-9")
      else if Nat.eqb (length l) 1 && str_leb (py "A") l && str_leb l (py "Z")
      then Some l
      else if Nat.eqb (length l) 1 then Some (py "_")
      else None
  end.

(** Lines 209 to 220 of [main]: the category of one entry at filter time;
    [None] is the [continue] of line 211. *)
Definition current_category (game_info : game_info) : option pystr :=
  let original_title := default (PyStr (py "Unknown Title")) (gi_title game_info) in
  let filename_safe_title := sanitize_filename original_title in
  match filename_safe_title with
  | [] => None
  | c :: _ =>
      let first_char := str_upper [c] in
      Some (if str_leb (py "0") first_char && str_leb first_char (py "9")
            then py "0-9"
            else if str_leb (py "A") first_char && str_leb first_char (py "Z")
            then first_char
            else py "_")
  end.

(** Lines 206 to 227 of [main]. *)
Definition filter_links (target : option pystr) (all_game_links : list game_info)
  : list game_info :=
  match target with
  | None | Some [] => all_game_links
  | Some cat =>
      List.filter
        (fun game_info => bool_decide (current_category game_info = Some cat))
        all_game_links
  end.

(** Lines 230 to 235 of [main]. *)
Definition apply_limit (limit : option Z) (links : list game_info)
  : list game_info :=
  match limit with
  | None => links
  | Some n =>
      if (n <? Z.of_nat (length links))%Z then slice_to n links else links
  end.

(** Lines 248 to 262 of [main]: the loop over the entries, from index [i]
    of [total_games], with the counters [(processed_count, error_count)]. *)
Fixpoint process_games (e : env) (args_output_dir : pystr) (games : list game_info)
    (i total_games : nat) (counts : nat * nat) : M (nat * nat) :=
  match games with
  | [] => mret counts
  | game_info :: rest =>
      r ← save_game_page_as_markdown e game_info args_output_dir;
      let '(success, request_made) := r in
      let counts :=
        if success : bool then (S (fst counts), snd counts)
        else (fst counts, S (snd counts)) in
      _ ← (if request_made && (Z.of_nat i <? Z.of_nat total_games - 1)%Z
           then time_sleep else mret ());
      process_games e args_output_dir rest (S i) total_games counts
  end.

(** [main] once the command line is parsed and [get_game_links] has
    returned [all_game_links]; [None] is one of the two early returns. *)
Definition main (e : env) (letter : option pystr) (limit : option Z)
    (args_output_dir : pystr) (all_game_links : list game_info)
  : M (option (nat * nat)) :=
  let target := target_letter_category letter in
  _ ← os_makedirs args_output_dir;
  match all_game_links with
  | [] => mret None
  | _ =>
      let game_links_to_process :=
        apply_limit limit (filter_links target all_game_links) in
      match game_links_to_process with
      | [] => mret None
      | _ =>
          let total_games := length game_links_to_process in
          counts ← process_games e args_output_dir game_links_to_process
                     0 total_games (0, 0)%nat;
          mret (Some counts)
      end
  end.

End Scraper.

(** ** The catalog and the whole program *)

(** An anchor of the index page: its [href] attribute, when it has one, and
    its text. *)
Record anchor := Anchor {
  href : option pystr;
  text_content : pystr;
}.

Definition BASE_URL : pystr := py "https://beforeiplay.com".
Definition INDEX_URL : pystr := BASE_URL ++ py "/index.php?title=Category:Games".

Section Catalog.

Variable upper_non_ascii : N -> pystr.
Variable markdownify : pystr -> pystr.

(** The anchors that the XPath query of [get_game_links] selects in a parsed
    tree, in document order: the query belongs to lxml. *)
Variable category_links : page -> list anchor.

(** The body of the loop of lines 44 to 49: an anchor without an [href], or
    with an empty one, gives no entry. *)
Definition link_entry (link : anchor) : option game_info :=
  match href link with
  | None | Some [] => None
  | Some h =>
      let full_url := BASE_URL ++ h in
      Some (GameInfo full_url (Some (PyStr (text_content link))))
  end.

(** [get_game_links]: a failed fetch gives the empty list; [if limit:] holds
    for an integer other than zero. *)
Definition get_game_links (e : env) (index_url : pystr) (limit : option Z)
  : M (list game_info) :=
  tree ← fetch_html e index_url;
  match tree with
  | None => mret []
  | Some tree =>
      let link_elements := category_links tree in
      let game_links := omap link_entry link_elements in
      match limit with
      | None => mret game_links
      | Some n =>
          if (n =? 0)%Z then mret game_links else mret (slice_to n game_links)
      end
  end.

(** Lines 201 to 268 of [main]: what follows the call of [get_game_links]. *)
Definition main_after_index (e : env) (letter : option pystr)
    (limit : option Z) (args_output_dir : pystr)
    (all_game_links : list game_info) : M (option (nat * nat)) :=
  let target := target_letter_category upper_non_ascii letter in
  match all_game_links with
  | [] => mret None
  | _ =>
      let game_links_to_process :=
        apply_limit limit (filter_links upper_non_ascii target all_game_links) in
      match game_links_to_process with
      | [] => mret None
      | _ =>
          let total_games := length game_links_to_process in
          counts ← process_games upper_non_ascii markdownify e args_output_dir
                     game_links_to_process 0 total_games (0, 0)%nat;
          mret (Some counts)
      end
  end.

(** [main] from line 193 on, with the fetch of the index. *)
Definition main_with_index (e : env) (letter : option pystr)
    (limit : option Z) (args_output_dir : pystr) : M (option (nat * nat)) :=
  _ ← os_makedirs args_output_dir;
  all_game_links ← get_game_links e INDEX_URL None;
  main_after_index e letter limit args_output_dir all_game_links.

End Catalog.

(** ** Observations on names and traces *)

(** [t] occurs in [s] as a contiguous piece. *)
Definition infix (t s : pystr) : Prop := exists a b, s = a ++ t ++ b.

(** Two adjacent periods somewhere in [s]. *)
Fixpoint has_dotdot (s : pystr) : bool :=
  match s with
  | c1 :: ((c2 :: _) as t) => ((c1 =? dot) && (c2 =? dot)) || has_dotdot t
  | _ => false
  end.

(** A character that the first substitution keeps. *)
Definition valid (c : N) : bool := negb (is_invalid c).

(** A character that no step of [sanitize_filename] touches when it stands
    inside a name: not in the deleted class, not a period, not a space. *)
Definition plain (c : N) : bool :=
  negb (is_invalid c) && negb (c =? dot) && negb (c =? space).

(** No period in [s]. *)
Definition no_dot (s : pystr) : bool := forallb (fun c => negb (c =? dot)) s.

(** A string cut at its runs of periods: each block is a stretch without
    periods followed by a run of [n] periods, and [tail] is what follows the
    last run. *)
Fixpoint with_runs (blocks : list (pystr * nat)) (tail : pystr) : pystr :=
  match blocks with
  | [] => tail
  | (a, n) :: r => a ++ replicate n dot ++ with_runs r tail
  end.

(** What a run of [n] periods is expected to become: one underscore for each
    pair, and the odd period stays. *)
Definition fill (n : nat) : pystr :=
  replicate (Nat.div2 n) underscore ++ (if Nat.odd n then [dot] else []).

Fixpoint with_fills (blocks : list (pystr * nat)) (tail : pystr) : pystr :=
  match blocks with
  | [] => tail
  | (a, n) :: r => a ++ fill n ++ with_fills r tail
  end.

(** The runs of [with_runs blocks tail] are the maximal runs of periods of the
    string: no stretch holds a period, every run has a period, and the
    stretch between two runs is not empty ([first] tells that the block at
    the head starts the string, where the stretch may be empty). *)
Fixpoint maximal_runs (first : bool) (blocks : list (pystr * nat)) (tail : pystr)
  : bool :=
  match blocks with
  | [] => no_dot tail
  | (a, n) :: r =>
      no_dot a && (first || match a with [] => false | _ => true end)
      && (0 <? n)%nat && maximal_runs false r tail
  end.

Definition is_fetch (ev : event) : bool :=
  match ev with
  | EvFetch _ _ => true
  | _ => false
  end.

Definition is_sleep (ev : event) : bool :=
  match ev with
  | EvSleep => true
  | _ => false
  end.

Definition is_remove (ev : event) : bool :=
  match ev with
  | EvRemove _ _ => true
  | _ => false
  end.

(** The number of network requests in a trace. *)
Definition fetches (tr : list event) : nat := length (List.filter is_fetch tr).

(** The number of times the rate limiter ran. *)
Definition sleeps (tr : list event) : nat := length (List.filter is_sleep tr).

(** After the existence check, a call only fetches, or writes to or removes
    the file at [dest]. *)
Definition after_check (dest : pystr) (ev : event) : Prop :=
  match ev with
  | EvFetch _ _ => True
  | EvWrite path _ _ => path = dest
  | EvRemove path _ => path = dest
  | _ => False
  end.

(** A name that [sanitize_filename] has nothing to do on: not empty, within
    the cap, only kept characters, no two adjacent periods, and neither a
    period nor a space at either end. *)
Definition safe_name (t : pystr) : bool :=
  match head t, last t with
  | Some x, Some y =>
      negb (char_in (py ". ") x) && negb (char_in (py ". ") y)
      && forallb valid t && negb (has_dotdot t)
      && Nat.leb (length t) max_len
  | _, _ => false
  end.

(** An event that only a call which made a request can end with. *)
Definition request_kind (ev : event) : bool :=
  match ev with
  | EvFetch _ _ | EvWrite _ _ _ | EvRemove _ _ => true
  | _ => false
  end.

(** Every pause of [t] comes right after an event of a requesting call and
    is followed by something; [prev] is the event just before [t]. *)
Fixpoint gated (prev : option event) (t : list event) : bool :=
  match t with
  | [] => true
  | ev :: r =>
      (if is_sleep ev
       then match prev with
            | Some before => request_kind before
            | None => false
            end
            && match r with [] => false | _ => true end
       else true)
      && gated (Some ev) r
  end.

(** The paths whose existence a trace checks, in order. *)
Definition checked_paths (t : list event) : list pystr :=
  omap (fun ev => match ev with EvExists path _ => Some path | _ => None end) t.

(** No pause in [t]. *)
Definition quiet (t : list event) : bool :=
  forallb (fun ev => negb (is_sleep ev)) t.

(** ** Sample worlds and environments *)

Module Samples.

(** Stand-ins for the two library functions: the titles below are ASCII, and
    the conversion is left as the identity. *)
Definition ascii_only_upper (c : N) : pystr := [c].
Definition keep_html (s : pystr) : pystr := s.

Definition hello : page := Page [py " Foo "] [py "<p>Hello</p>"] [].

(** Every request is answered and every write succeeds. *)
Definition online : env :=
  Env (fun _ _ => Some hello) (fun _ _ _ => Written) (fun _ _ => true).

(** Every request fails. *)
Definition offline : env :=
  Env (fun _ _ => None) (fun _ _ _ => Written) (fun _ _ => true).

(** Every write stops with an I/O error after creating the file. *)
Definition disk_full : env :=
  Env (fun _ _ => Some hello) (fun _ _ _ => IOFailed (Some (py "<p>")))
      (fun _ _ => true).

(** Every write stops with an exception that is not an I/O error, after
    creating the file. *)
Definition odd_failure : env :=
  Env (fun _ _ => Some hello) (fun _ _ _ => OtherFailed (Some []))
      (fun _ _ => true).

Definition entry (title : string) : game_info :=
  GameInfo (py "https://beforeiplay.com/index.php?title=" ++ py title)
           (Some (PyStr (py title))).

Definition fresh : world := World ∅ [].

(** The file of the entry Bar is already there. *)
Definition bar_saved : world :=
  World (<[py "out/B/Bar.md" := File (py "old")]> (<[py "out/B" := Dir]> ∅)) [].

Definition run_save (e : env) (g : game_info) (w : world)
  : (exn + bool * bool) * world :=
  save_game_page_as_markdown ascii_only_upper keep_html e g (py "out") w.

Definition run_main (e : env) (games : list game_info) (w : world)
  : (exn + option (nat * nat)) * world :=
  main ascii_only_upper keep_html e None None (py "out") games w.

(** The requests and the pauses of a trace, in order. *)
Definition requests_and_pauses (tr : list event) : list event :=
  List.filter (fun ev => is_fetch ev || is_sleep ev) tr.

(** The output directory and the bucket directory F are there, empty. *)
Definition bucket_ready : world :=
  World (<[py "out/F" := Dir]> (<[py "out" := Dir]> ∅)) [].

(** A regular file stands where the bucket directory F should be. *)
Definition bucket_blocked : world :=
  World (<[py "out/F" := File (py "notes")]> ∅) [].

(** An index page with three anchors: one without [href], two with. *)
Definition sample_anchors (_ : page) : list anchor :=
  [Anchor None (py "Help");
   Anchor (Some (py "/index.php?title=Abc")) (py "Abc");
   Anchor (Some (py "/index.php?title=Foo")) (py "Foo")].

Definition run_index (e : env) (limit : option Z) (w : world)
  : (exn + list game_info) * world :=
  get_game_links sample_anchors e INDEX_URL limit w.

End Samples.
Import Samples.

(** ** The sanitizer *)

Section SanitizeFacts.

Lemma sub_dotdot_pair r : sub_dotdot (dot :: dot :: r) = underscore :: sub_dotdot r.
Proof. reflexivity. Qed.

Lemma sub_dotdot_step c1 c2 r :
  (c1 =? dot) && (c2 =? dot) = false ->
  sub_dotdot (c1 :: c2 :: r) = c1 :: sub_dotdot (c2 :: r).
Proof. intros H. cbn [sub_dotdot]. now rewrite H. Qed.

Lemma sub_dotdot_cons c r :
  c <> dot -> sub_dotdot (c :: r) = c :: sub_dotdot r.
Proof.
  intros Hc. destruct r as [|c2 r]; [reflexivity|].
  apply sub_dotdot_step. apply N.eqb_neq in Hc. now rewrite Hc.
Qed.

(** The induction scheme that follows the scan of [sub_dotdot]. *)
Lemma sub_dotdot_scan (P : pystr -> Prop) :
  P [] ->
  (forall c, P [c]) ->
  (forall r, P r -> P (dot :: dot :: r)) ->
  (forall c1 c2 r, (c1 =? dot) && (c2 =? dot) = false ->
                   P (c2 :: r) -> P (c1 :: c2 :: r)) ->
  forall s, P s.
Proof.
  intros Hnil Hone Hpair Hstep s.
  assert (H : forall n s, (length s <= n)%nat -> P s).
  { clear s. induction n as [|n IH]; intros s Hs.
    - destruct s; [assumption | simpl in Hs; lia].
    - destruct s as [|c1 [|c2 r]]; [assumption | apply Hone |].
      destruct ((c1 =? dot) && (c2 =? dot)) eqn:E.
      + apply andb_true_iff in E as [E1 E2].
        apply N.eqb_eq in E1, E2. subst.
        apply Hpair, IH. simpl in Hs. lia.
      + apply Hstep; [assumption|]. apply IH. simpl in *. lia. }
  apply (H (length s)). lia.
Qed.

Lemma has_dotdot_cons c1 c2 r :
  has_dotdot (c1 :: c2 :: r) = ((c1 =? dot) && (c2 =? dot)) || has_dotdot (c2 :: r).
Proof. reflexivity. Qed.

Lemma has_dotdot_sub_dotdot s : has_dotdot (sub_dotdot s) = false.
Proof.
  induction s as [ | c | r IHs | c1 c2 r H IHs] using sub_dotdot_scan.
  - reflexivity.
  - reflexivity.
  - rewrite sub_dotdot_pair.
    destruct (sub_dotdot r) eqn:E; [reflexivity|].
    rewrite has_dotdot_cons, IHs. reflexivity.
  - rewrite sub_dotdot_step by assumption.
    destruct (sub_dotdot (c2 :: r)) as [|d t] eqn:E; [reflexivity|].
    rewrite has_dotdot_cons, IHs, orb_false_r.
    destruct (N.eqb_spec c1 dot) as [->|]; [|reflexivity].
    simpl in H. destruct (N.eqb_spec c2 dot) as [|Hc2]; [discriminate|].
    rewrite (sub_dotdot_cons _ _ Hc2) in E. injection E as <- _.
    apply N.eqb_neq in Hc2. now rewrite Hc2.
Qed.

Lemma has_dotdot_occurs s pre post :
  s = pre ++ dot :: dot :: post -> has_dotdot s = true.
Proof.
  revert s. induction pre as [|c pre IH]; intros s ->.
  - reflexivity.
  - simpl app. destruct pre as [|c' pre].
    + simpl. apply orb_true_r.
    + specialize (IH _ eq_refl). simpl app in *.
      rewrite has_dotdot_cons, IH. apply orb_true_r.
Qed.

Lemma sub_dotdot_free s pre post : sub_dotdot s <> pre ++ dot :: dot :: post.
Proof.
  intros H. apply has_dotdot_occurs in H.
  rewrite has_dotdot_sub_dotdot in H. discriminate.
Qed.

Lemma infix_free t s :
  infix t s ->
  (forall pre post, s <> pre ++ dot :: dot :: post) ->
  forall pre post, t <> pre ++ dot :: dot :: post.
Proof.
  intros (a & b & ->) Hs pre post ->.
  apply (Hs (a ++ pre) (post ++ b)).
  now rewrite <- !app_assoc.
Qed.

Lemma infix_trans t u s : infix t u -> infix u s -> infix t s.
Proof.
  intros (a & b & ->) (c & d & ->). exists (c ++ a), (b ++ d).
  now rewrite <- !app_assoc.
Qed.

Lemma lstrip_suffix chars s : exists a, s = a ++ lstrip chars s.
Proof.
  induction s as [|c s [a IH]]; [now exists []|].
  simpl. destruct (char_in chars c).
  - exists (c :: a). simpl. now f_equal.
  - now exists [].
Qed.

Lemma rstrip_prefix chars s : exists b, s = rstrip chars s ++ b.
Proof.
  unfold rstrip. destruct (lstrip_suffix chars (rev s)) as [a Ha].
  exists (rev a). rewrite <- rev_app_distr, <- Ha. now rewrite rev_involutive.
Qed.

Lemma strip_infix chars s : infix (strip chars s) s.
Proof.
  unfold strip. destruct (lstrip_suffix chars s) as [a Ha].
  destruct (rstrip_prefix chars (lstrip chars s)) as [b Hb].
  exists a, b. now rewrite <- Hb.
Qed.

Lemma before_last_Some sep s p :
  before_last sep s = Some p ->
  exists b, s = p ++ sep :: b /\ before_last sep b = None.
Proof.
  revert p. induction s as [|c s IH]; intros p; [discriminate|].
  simpl. destruct (before_last sep s) as [q|] eqn:E.
  - intros [= <-]. destruct (IH q eq_refl) as (b & -> & Hb).
    now exists b.
  - destruct (N.eqb_spec c sep) as [->|]; [|discriminate].
    intros [= <-]. now exists s.
Qed.

Lemma before_last_None sep s :
  before_last sep s = None <-> Forall (fun c => c <> sep) s.
Proof.
  induction s as [|c s IH]; simpl.
  - split; [constructor | reflexivity].
  - destruct (before_last sep s) as [q|].
    + split; [discriminate|]. intros H. apply Forall_cons in H as [_ H].
      now apply IH in H.
    + destruct (N.eqb_spec c sep) as [->|Hc].
      * split; [discriminate|]. intros H. now apply Forall_cons in H as [H _].
      * split; [|reflexivity]. intros _. constructor; [assumption|now apply IH].
Qed.

Lemma rsplit1_head_prefix sep s : exists b, s = rsplit1_head sep s ++ b.
Proof.
  unfold rsplit1_head. destruct (before_last sep s) as [p|] eqn:E; simpl.
  - apply before_last_Some in E as (b & -> & _). now exists (sep :: b).
  - exists []. now rewrite app_nil_r.
Qed.

Lemma truncate_prefix s : exists b, s = truncate s ++ b.
Proof.
  unfold truncate. destruct (Nat.ltb max_len (length s)).
  - destruct (rsplit1_head_prefix space (take max_len s)) as [b Hb].
    exists (b ++ drop max_len s).
    rewrite app_assoc, <- Hb. now rewrite take_drop.
  - exists []. now rewrite app_nil_r.
Qed.

Lemma truncate_length s : (length (truncate s) <= max_len)%nat.
Proof.
  unfold truncate. destruct (Nat.ltb_spec max_len (length s)); [|assumption].
  destruct (rsplit1_head_prefix space (take max_len s)) as [b Hb].
  apply (f_equal length) in Hb. rewrite length_app, length_take in Hb. lia.
Qed.

Lemma truncate_infix_clean t : infix (truncate (clean t)) (sub_dotdot (remove_invalid t)).
Proof.
  apply infix_trans with (clean t); [|apply strip_infix].
  destruct (truncate_prefix (clean t)) as [b Hb].
  exists [], b. exact Hb.
Qed.

(** [sanitize_str] is the three cleaning steps, the cap, and the sentinel
    for an empty result. *)
Lemma sanitize_str_steps t :
  t <> [] ->
  sanitize_str t =
    match truncate (clean t) with
    | [] => sanitized_empty
    | r => r
    end.
Proof.
  destruct t as [|c t]; [congruence|]. intros _.
  change (sanitize_str (c :: t))
    with (match truncate (clean (c :: t)) with
          | [] => sanitized_empty
          | _ => truncate (clean (c :: t))
          end).
  now destruct (truncate (clean (c :: t))).
Qed.

Lemma sanitize_cases name :
  sanitize_filename name = unknown_game
  \/ sanitize_filename name = sanitized_empty
  \/ exists t, name = PyStr t /\ t <> [] /\ truncate (clean t) <> []
               /\ sanitize_filename name = truncate (clean t).
Proof.
  destruct name as [|t]; [now left|].
  destruct t as [|c t]; [now left|].
  change (sanitize_filename (PyStr (c :: t))) with (sanitize_str (c :: t)).
  rewrite sanitize_str_steps by discriminate.
  destruct (truncate (clean (c :: t))) eqn:E; [now right; left|].
  right; right. exists (c :: t). rewrite E. repeat split; discriminate.
Qed.

Lemma remove_invalid_valid s : forallb valid (remove_invalid s) = true.
Proof.
  unfold remove_invalid. induction s as [|c s IH]; [reflexivity|].
  cbn [List.filter]. destruct (negb (is_invalid c)) eqn:E; [|exact IH].
  cbn [forallb]. unfold valid at 1. now rewrite E.
Qed.

Lemma sub_dotdot_forallb (P : N -> bool) (s : pystr) :
  P underscore = true -> forallb P s = true -> forallb P (sub_dotdot s) = true.
Proof.
  intros Hu.
  induction s as [ | c | r IH | c1 c2 r H IH] using sub_dotdot_scan; intros Hs.
  - reflexivity.
  - exact Hs.
  - rewrite sub_dotdot_pair. cbn [forallb] in *. rewrite Hu.
    apply andb_true_iff in Hs as [_ Hs]. apply andb_true_iff in Hs as [_ Hs].
    now apply IH.
  - rewrite sub_dotdot_step by assumption.
    change (forallb P (c1 :: c2 :: r)) with (P c1 && forallb P (c2 :: r)) in Hs.
    apply andb_true_iff in Hs as [H1 Hs].
    change (P c1 && forallb P (sub_dotdot (c2 :: r)) = true).
    rewrite H1. now apply IH.
Qed.

Lemma infix_forallb (P : N -> bool) t s :
  infix t s -> forallb P s = true -> forallb P t = true.
Proof.
  intros (a & b & ->). rewrite !forallb_app.
  intros H. apply andb_true_iff in H as [_ H].
  now apply andb_true_iff in H as [H _].
Qed.

Lemma sanitize_valid name : forallb valid (sanitize_filename name) = true.
Proof.
  destruct (sanitize_cases name) as [-> | [-> | (t & _ & _ & _ & ->)]];
    [reflexivity | reflexivity |].
  apply (infix_forallb _ _ _ (truncate_infix_clean t)).
  apply sub_dotdot_forallb; [reflexivity | apply remove_invalid_valid].
Qed.

Lemma sanitize_no_dotdot name pre post :
  sanitize_filename name <> pre ++ dot :: dot :: post.
Proof.
  destruct (sanitize_cases name) as [E | [E | (t & _ & _ & _ & E)]]; rewrite E.
  - intros H. now apply has_dotdot_occurs in H.
  - intros H. now apply has_dotdot_occurs in H.
  - apply (infix_free _ _ (truncate_infix_clean t)). apply sub_dotdot_free.
Qed.

Lemma valid_not_elem c s : forallb valid s = true -> valid c = false -> c ∉ s.
Proof.
  intros Hs Hc Hin. apply list_elem_of_In in Hin.
  rewrite forallb_forall in Hs. apply Hs in Hin. congruence.
Qed.

Lemma sanitize_nonempty name : sanitize_filename name <> [].
Proof.
  destruct (sanitize_cases name) as [-> | [-> | (t & _ & _ & H & ->)]];
    [discriminate | discriminate | exact H].
Qed.

Lemma sanitize_length name : (length (sanitize_filename name) <= max_len)%nat.
Proof.
  destruct (sanitize_cases name) as [-> | [-> | (t & _ & _ & _ & ->)]].
  - vm_compute. lia.
  - vm_compute. lia.
  - apply truncate_length.
Qed.

Lemma lstrip_head chars s c r : lstrip chars s = c :: r -> char_in chars c = false.
Proof.
  induction s as [|d s IH]; [discriminate|].
  cbn [lstrip]. destruct (char_in chars d) eqn:E; [exact IH|].
  now intros [= <- _].
Qed.

Lemma lstrip_snoc chars l c :
  char_in chars c = false -> lstrip chars (l ++ [c]) = lstrip chars l ++ [c].
Proof.
  intros Hc. induction l as [|d l IH]; cbn [lstrip app].
  - now rewrite Hc.
  - now destruct (char_in chars d).
Qed.

Lemma rstrip_cons chars c r :
  char_in chars c = false -> rstrip chars (c :: r) = c :: rstrip chars r.
Proof.
  intros Hc. unfold rstrip. cbn [rev].
  now rewrite lstrip_snoc, rev_unit.
Qed.

Lemma strip_head chars s c r : strip chars s = c :: r -> char_in chars c = false.
Proof.
  unfold strip. destruct (lstrip chars s) as [|d t] eqn:E; [discriminate|].
  apply lstrip_head in E. rewrite rstrip_cons by assumption.
  now intros [= <- _].
Qed.

Lemma clean_head t : clean t !! 0%nat <> Some space.
Proof.
  destruct (clean t) as [|c r] eqn:E; [discriminate|].
  apply strip_head in E. intros [= ->]. discriminate.
Qed.

Lemma before_last_spec sep s p :
  before_last sep s = Some p ->
  s !! length p = Some sep /\ take (length p) s = p
  /\ forall j, (length p < j)%nat -> s !! j <> Some sep.
Proof.
  intros H. apply before_last_Some in H as (b & -> & Hb).
  apply before_last_None in Hb. repeat split.
  - apply list_lookup_middle. reflexivity.
  - apply take_app_length.
  - intros j Hj Hl. rewrite lookup_app_r in Hl by lia.
    destruct (j - length p)%nat as [|k] eqn:Ek; [lia|]. cbn in Hl.
    rewrite Forall_lookup in Hb. now apply Hb in Hl.
Qed.

Lemma truncate_short c : (length c <= max_len)%nat -> truncate c = c.
Proof.
  intros H. unfold truncate.
  destruct (Nat.ltb_spec max_len (length c)); [lia | reflexivity].
Qed.

Lemma truncate_at_space c i :
  (max_len < length c)%nat -> (i < max_len)%nat -> c !! i = Some space ->
  (forall j, (i < j < max_len)%nat -> c !! j <> Some space) ->
  truncate c = take i c.
Proof.
  intros Hlen Hi Hsp Hlast. unfold truncate.
  destruct (Nat.ltb_spec max_len (length c)); [|lia].
  unfold rsplit1_head.
  destruct (before_last space (take max_len c)) as [p|] eqn:E; cbn [default].
  - apply before_last_spec in E as (Hp & Htake & Hafter).
    assert (Hpl : (length p < max_len)%nat).
    { apply lookup_lt_Some in Hp. rewrite length_take in Hp.
      unfold max_len in *. lia. }
    assert (length p = i) as Hpi.
    { destruct (lt_eq_lt_dec (length p) i) as [[Hlt | Heq] | Hgt].
      - exfalso. apply (Hafter i Hlt). now rewrite lookup_take_lt.
      - exact Heq.
      - exfalso. apply (Hlast (length p)); [lia|].
        now rewrite lookup_take_lt in Hp. }
    rewrite <- Htake, Hpi, take_take, Nat.min_l by lia. reflexivity.
  - exfalso. apply before_last_None in E. rewrite Forall_lookup in E.
    apply (E i space); [|reflexivity]. now rewrite lookup_take_lt.
Qed.

Lemma truncate_hard c :
  (max_len < length c)%nat ->
  (forall j, (j < max_len)%nat -> c !! j <> Some space) ->
  truncate c = take max_len c.
Proof.
  intros Hlen Hno. unfold truncate.
  destruct (Nat.ltb_spec max_len (length c)); [|lia].
  unfold rsplit1_head.
  destruct (before_last space (take max_len c)) as [p|] eqn:E; [|reflexivity].
  exfalso. apply before_last_spec in E as (Hp & _ & _).
  assert (Hpl : (length p < max_len)%nat).
  { apply lookup_lt_Some in Hp. rewrite length_take in Hp.
    unfold max_len in *. lia. }
  rewrite lookup_take_lt in Hp by assumption. now apply (Hno (length p)).
Qed.

Lemma plain_valid c : plain c = true -> valid c = true.
Proof.
  unfold plain, valid. intros H.
  apply andb_true_iff in H as [H _]. now apply andb_true_iff in H as [H _].
Qed.

Lemma plain_not_dot c : plain c = true -> c <> dot.
Proof.
  unfold plain. intros H. apply andb_true_iff in H as [H _].
  apply andb_true_iff in H as [_ H]. intros ->. discriminate.
Qed.

Lemma plain_not_stripped c : plain c = true -> char_in (py ". ") c = false.
Proof.
  unfold plain. intros H. apply andb_true_iff in H as [H Hs].
  apply andb_true_iff in H as [_ Hd].
  change (char_in (py ". ") c) with ((c =? dot) || ((c =? space) || false)).
  destruct (c =? dot); [discriminate|]. now destruct (c =? space).
Qed.

Lemma remove_invalid_id s : forallb valid s = true -> remove_invalid s = s.
Proof.
  unfold remove_invalid. induction s as [|c s IH]; [reflexivity|].
  cbn [forallb List.filter]. intros H. apply andb_true_iff in H as [Hc Hs].
  unfold valid in Hc. rewrite Hc. f_equal. now apply IH.
Qed.

Lemma forallb_plain_valid s : forallb plain s = true -> forallb valid s = true.
Proof.
  rewrite !forallb_forall. intros H c Hc. now apply plain_valid, H.
Qed.

Lemma sub_dotdot_plain_app a l :
  forallb plain a = true -> sub_dotdot (a ++ l) = a ++ sub_dotdot l.
Proof.
  induction a as [|c a IH]; [reflexivity|].
  cbn [forallb app]. intros H. apply andb_true_iff in H as [Hc Ha].
  rewrite sub_dotdot_cons by now apply plain_not_dot.
  f_equal. now apply IH.
Qed.

Lemma sub_dotdot_plain b : forallb plain b = true -> sub_dotdot b = b.
Proof.
  intros H. pose proof (sub_dotdot_plain_app b [] H) as E.
  change (sub_dotdot []) with (@nil N) in E.
  now rewrite !app_nil_r in E.
Qed.

(** A run of [n] periods followed by something that is not a period: one
    underscore for each pair met by the scan, and the odd period stays. *)
Lemma sub_dotdot_run n b :
  head b <> Some dot ->
  sub_dotdot (replicate n dot ++ b) =
    replicate (Nat.div2 n) underscore
      ++ (if Nat.odd n then [dot] else []) ++ sub_dotdot b.
Proof.
  intros Hb.
  assert (H : forall n,
    sub_dotdot (replicate n dot ++ b) =
      replicate (Nat.div2 n) underscore
        ++ (if Nat.odd n then [dot] else []) ++ sub_dotdot b
    /\ sub_dotdot (replicate (S n) dot ++ b) =
      replicate (Nat.div2 (S n)) underscore
        ++ (if Nat.odd (S n) then [dot] else []) ++ sub_dotdot b).
  { clear n. induction n as [|n [IH1 IH2]].
    - split; [reflexivity|].
      cbn [replicate app Nat.div2 Nat.odd Nat.even negb].
      destruct b as [|c b]; [reflexivity|].
      apply sub_dotdot_step.
      destruct (N.eqb_spec c dot) as [->|]; [now contradict Hb|].
      apply andb_false_r.
    - split; [exact IH2|].
      change (replicate (S (S n)) dot ++ b)
        with (dot :: dot :: (replicate n dot ++ b)).
      rewrite sub_dotdot_pair, IH1. reflexivity. }
  apply H.
Qed.

Lemma strip_plain_ends s x y :
  head s = Some x -> last s = Some y ->
  plain x = true -> plain y = true ->
  strip (py ". ") s = s.
Proof.
  intros Hx Hy Px Py. unfold strip.
  destruct s as [|c s]; [discriminate|]. injection Hx as ->.
  cbn [lstrip]. rewrite (plain_not_stripped _ Px).
  unfold rstrip. apply last_Some in Hy as [l' Hl]. rewrite Hl.
  rewrite rev_unit. cbn [lstrip]. rewrite (plain_not_stripped _ Py).
  now rewrite <- rev_unit, rev_involutive.
Qed.

Lemma sub_dotdot_no_dot_app a l :
  no_dot a = true -> sub_dotdot (a ++ l) = a ++ sub_dotdot l.
Proof.
  unfold no_dot. induction a as [|c a IH]; [reflexivity|].
  cbn [forallb app]. intros H. apply andb_true_iff in H as [Hc Ha].
  rewrite sub_dotdot_cons.
  - f_equal. now apply IH.
  - intros ->. discriminate.
Qed.

Lemma sub_dotdot_no_dot a : no_dot a = true -> sub_dotdot a = a.
Proof.
  intros H. pose proof (sub_dotdot_no_dot_app a [] H) as E.
  change (sub_dotdot []) with (@nil N) in E.
  now rewrite !app_nil_r in E.
Qed.

Lemma no_dot_head a : no_dot a = true -> head a <> Some dot.
Proof.
  destruct a as [|c a]; [discriminate|].
  unfold no_dot. cbn [forallb head]. intros H [= ->]. discriminate.
Qed.

(** What follows a run does not start with a period. *)
Lemma with_runs_head blocks tail :
  maximal_runs false blocks tail = true -> head (with_runs blocks tail) <> Some dot.
Proof.
  destruct blocks as [|[a n] r]; cbn [maximal_runs with_runs].
  - apply no_dot_head.
  - intros H. apply andb_true_iff in H as [H _].
    apply andb_true_iff in H as [H _]. apply andb_true_iff in H as [Ha Hne].
    destruct a as [|c a]; [discriminate|].
    apply (no_dot_head (c :: a)) in Ha. exact Ha.
Qed.

(** The substitution of [sub_dotdot] rewrites every maximal run of periods
    of its argument. *)
Lemma sub_dotdot_runs first blocks tail :
  maximal_runs first blocks tail = true ->
  sub_dotdot (with_runs blocks tail) = with_fills blocks tail.
Proof.
  revert first. induction blocks as [|[a n] r IH]; intros first H.
  - now apply sub_dotdot_no_dot.
  - cbn [maximal_runs] in H. apply andb_true_iff in H as [H Hr].
    apply andb_true_iff in H as [H _]. apply andb_true_iff in H as [Ha _].
    cbn [with_runs with_fills].
    rewrite sub_dotdot_no_dot_app by exact Ha.
    rewrite sub_dotdot_run by now apply with_runs_head.
    unfold fill. rewrite (IH false Hr), <- app_assoc. reflexivity.
Qed.

(** Every string is cut at its maximal runs of periods in this way. *)
Lemma runs_exist (s : pystr) :
  exists blocks tail,
    s = with_runs blocks tail /\ maximal_runs true blocks tail = true.
Proof.
  induction s as [|c s (blocks & tail & -> & H)].
  - exists [], []. split; reflexivity.
  - destruct (N.eqb_spec c dot) as [->|Hc].
    + destruct blocks as [|[[|x a] n] r].
      * exists [([], 1%nat)], tail. split; [reflexivity|].
        cbn [maximal_runs] in *. now rewrite H.
      * exists (([], S n) :: r), tail. split; [reflexivity|].
        cbn [maximal_runs] in *.
        apply andb_true_iff in H as [_ H]. now rewrite H.
      * exists (([], 1%nat) :: (x :: a, n) :: r), tail. split; [reflexivity|].
        cbn [maximal_runs] in *.
        apply andb_true_iff in H as [H Hr].
        apply andb_true_iff in H as [H Hn].
        apply andb_true_iff in H as [Ha _].
        now rewrite Ha, Hn, Hr.
    + apply N.eqb_neq in Hc.
      destruct blocks as [|[a n] r].
      * exists [], (c :: tail). split; [reflexivity|].
        cbn [maximal_runs] in *. unfold no_dot in *. cbn [forallb].
        now rewrite Hc, H.
      * exists ((c :: a, n) :: r), tail. split; [reflexivity|].
        cbn [maximal_runs] in *.
        apply andb_true_iff in H as [H Hr].
        apply andb_true_iff in H as [H Hn].
        apply andb_true_iff in H as [Ha _].
        unfold no_dot in *. cbn [forallb].
        now rewrite Hc, Ha, Hn, Hr.
Qed.

(** One run of [n] periods between two stretches of plain characters, when
    the result fits the cap: nothing else of the title changes. *)
Lemma dot_run_between_plain :
  forall (a b : pystr) (n : nat),
    a <> [] -> b <> [] ->
    forallb plain a = true -> forallb plain b = true ->
    (length a + Nat.div2 n + (if Nat.odd n then 1 else 0) + length b <= 100)%nat ->
    sanitize_filename (PyStr (a ++ replicate n dot ++ b)) =
      a ++ replicate (Nat.div2 n) underscore
        ++ (if Nat.odd n then [dot] else []) ++ b.
Proof.
  intros a b n Ha Hb Pa Pb Hlen.
  set (r := a ++ replicate (Nat.div2 n) underscore
              ++ (if Nat.odd n then [dot] else []) ++ b).
  assert (Hclean : clean (a ++ replicate n dot ++ b) = r).
  { unfold clean.
    rewrite remove_invalid_id.
    2:{ rewrite !forallb_app, (forallb_plain_valid a Pa), (forallb_plain_valid b Pb).
        rewrite andb_true_r. cbn [andb].
        clear. induction n as [|n IH]; [reflexivity | exact IH]. }
    rewrite sub_dotdot_plain_app by assumption.
    rewrite sub_dotdot_run.
    2:{ destruct b as [|c b]; [congruence|]. cbn [head forallb] in *.
        apply andb_true_iff in Pb as [Pc _]. intros [= ->]. discriminate. }
    rewrite (sub_dotdot_plain b Pb). fold r.
    destruct a as [|x a]; [congruence|].
    destruct (last b) as [y|] eqn:Ey; [|apply last_None in Ey; congruence].
    apply (strip_plain_ends r x y).
    - reflexivity.
    - unfold r. rewrite !app_assoc. destruct b as [|c b]; [congruence|].
      rewrite last_app_cons. exact Ey.
    - cbn [forallb] in Pa. now apply andb_true_iff in Pa as [Px _].
    - rewrite forallb_forall in Pb. apply Pb.
      apply last_Some in Ey as [l' ->]. apply in_app_iff. right. now left. }
  assert (Hr : (length r <= max_len)%nat).
  { unfold r. rewrite !length_app, length_replicate.
    unfold max_len. destruct (Nat.odd n); cbn [length]; lia. }
  change (sanitize_filename (PyStr (a ++ replicate n dot ++ b)))
    with (sanitize_str (a ++ replicate n dot ++ b)).
  rewrite sanitize_str_steps by (destruct a; [congruence | discriminate]).
  rewrite Hclean, truncate_short by exact Hr.
  destruct r eqn:Er; [|reflexivity].
  destruct a; [congruence | discriminate].
Qed.

End SanitizeFacts.

(** C6. Traversal safety: for every title that contains ../../etc/passwd,
    the identifier returned by [sanitize_filename] has no two adjacent
    periods, no slash and no backslash, and none of the characters of the
    deleted class; on that title alone the result is __etcpasswd. *)
Theorem traversal_safety :
  (forall pre post,
     let r := sanitize_filename (PyStr (pre ++ py "../../etc/passwd" ++ post)) in
     ~ infix (py "..") r /\ (slash ∉ r) /\ (backslash ∉ r)
     /\ forall c, c ∈ r -> is_invalid c = false)
  /\ sanitize_filename (PyStr (py "../../etc/passwd")) = py "__etcpasswd".
Proof.
  split; [|reflexivity].
  intros pre post r. pose proof (sanitize_valid (PyStr (pre ++ py "../../etc/passwd" ++ post))) as Hv.
  fold r in Hv. repeat split.
  - intros (a & b & Hab). now apply sanitize_no_dotdot in Hab.
  - now apply valid_not_elem.
  - now apply valid_not_elem.
  - intros c Hc. apply list_elem_of_In in Hc.
    rewrite forallb_forall in Hv. apply Hv in Hc.
    unfold valid in Hc. now destruct (is_invalid c).
Qed.

(** C8. Length bound and truncation: the result of [sanitize_filename] has
    at most 100 characters and is never empty. For a non-empty title whose
    cleaned form [c] (after the two substitutions and the trimming) is at
    most 100 long, the result is [c], or the sentinel when [c] is empty.
    When [c] is longer than 100, the result is [c] cut just before the last
    space among its first 100 characters, and its first 100 characters when
    there is no space among them. *)
Theorem sanitize_length_cap :
  forall name,
    let r := sanitize_filename name in
    (length r <= 100)%nat /\ r <> []
    /\ forall t, name = PyStr t -> t <> [] ->
         let c := clean t in
         ((length c <= 100)%nat ->
            r = match c with [] => sanitized_empty | _ => c end)
         /\ ((100 < length c)%nat ->
               (forall i, (i < 100)%nat -> c !! i = Some space ->
                  (forall j, (i < j < 100)%nat -> c !! j <> Some space) ->
                  r = take i c)
               /\ ((forall j, (j < 100)%nat -> c !! j <> Some space) ->
                   r = take 100 c)).
Proof.
  intros name r. split; [apply sanitize_length|].
  split; [apply sanitize_nonempty|].
  intros t -> Ht c. subst r.
  change (sanitize_filename (PyStr t)) with (sanitize_str t).
  rewrite (sanitize_str_steps t Ht). fold c. split.
  - intros Hlen. rewrite truncate_short by exact Hlen. now destruct c.
  - intros Hlen. split.
    + intros i Hi Hsp Hlast.
      rewrite (truncate_at_space c i) by assumption.
      destruct i as [|i]; [now apply clean_head in Hsp|].
      destruct c as [|d c']; [simpl in Hlen; lia | reflexivity].
    + intros Hno. rewrite truncate_hard by assumption.
      destruct c as [|d c']; [simpl in Hlen; lia | reflexivity].
Qed.

(** C9, as amended. The empty title and the absent title yield one and the
    same sentinel, _unknown_game_; a non-empty title that is empty after the
    cleaning and the cap yields _sanitized_empty_, and the two sentinels
    differ. *)
Theorem sentinels :
  sanitize_filename (PyStr []) = py "_unknown_game_"
  /\ sanitize_filename PyNone = py "_unknown_game_"
  /\ (forall t, t <> [] -> truncate (clean t) = [] ->
        sanitize_filename (PyStr t) = py "_sanitized_empty_")
  /\ sanitize_filename (PyStr (py " . ")) = py "_sanitized_empty_"
  /\ sanitized_empty <> unknown_game.
Proof.
  repeat split; try reflexivity; try discriminate.
  intros t Ht E.
  change (sanitize_filename (PyStr t)) with (sanitize_str t).
  now rewrite sanitize_str_steps, E.
Qed.

(** C9, the claim as stated fails: the empty title and the absent title do
    not get two distinct sentinels, they get the same one. *)
Lemma sentinels_empty_and_absent_coincide :
  sanitize_filename (PyStr (py "")) = sanitize_filename PyNone
  /\ ~ (sanitize_filename (PyStr (py "")) <> sanitize_filename PyNone).
Proof. split; [reflexivity | intros H; now apply H]. Qed.

(** C10. Trimming comes before the cap and is not repeated after it: the
    title made of ab, a period, a space and then 100 letters c is 104
    characters long, is left as it is by the cleaning steps, and is cut at
    its only space, so the result is ab followed by a period. *)
Theorem truncation_keeps_trailing_period :
  let t := py "ab. " ++ replicate 100 99 in
  t <> [] /\ length t = 104%nat /\ clean t = t
  /\ sanitize_filename (PyStr t) = py "ab."
  /\ last (sanitize_filename (PyStr t)) = Some dot.
Proof. intros t. repeat split. discriminate. Qed.

(** C7, as amended. Dot-pair replacement, for every non-empty title. Once
    the deleted characters are removed, the title is cut at its maximal runs
    of periods (every string is cut in this way), and [sanitize_filename]
    returns what the trimming of periods and spaces at the two ends, the cap
    of 100 characters and the sentinel for an empty result make of the
    string in which every run of [n] periods has become [n / 2] underscores,
    one for each pair met from left to right, followed by one period when
    [n] is odd. In particular a title made of a non-empty piece [a], a run of [n]
    periods and a non-empty piece [b], where [a] and [b] hold no period,
    space or deleted character and the result fits the cap, gives [a], the
    [n / 2] underscores, the odd period and [b]. *)
Theorem dot_pairs_replaced :
  (forall s : pystr, exists blocks tail,
      s = with_runs blocks tail /\ maximal_runs true blocks tail = true)
  /\ (forall (t : pystr) blocks tail,
        t <> [] ->
        remove_invalid t = with_runs blocks tail ->
        maximal_runs true blocks tail = true ->
        sanitize_filename (PyStr t) =
          match truncate (strip (py ". ") (with_fills blocks tail)) with
          | [] => sanitized_empty
          | r => r
          end)
  /\ (forall (a b : pystr) (n : nat),
        a <> [] -> b <> [] ->
        forallb plain a = true -> forallb plain b = true ->
        (length a + Nat.div2 n + (if Nat.odd n then 1 else 0) + length b <= 100)%nat ->
        sanitize_filename (PyStr (a ++ replicate n dot ++ b)) =
          a ++ replicate (Nat.div2 n) underscore
            ++ (if Nat.odd n then [dot] else []) ++ b).
Proof.
  split; [exact runs_exist|]. split; [|exact dot_run_between_plain].
  intros t blocks tail Ht E H.
  change (sanitize_filename (PyStr t)) with (sanitize_str t).
  rewrite sanitize_str_steps by exact Ht.
  unfold clean. rewrite E, (sub_dotdot_runs true) by exact H. reflexivity.
Qed.

(** C7 at two titles: both runs of a..b.....c are rewritten, and the four
    periods of a....b give two underscores. *)
Lemma dot_pairs_replaced_witness :
  sanitize_filename (PyStr (py "a..b.....c")) = py "a_b__.c"
  /\ sanitize_filename (PyStr (py "a" ++ replicate 4 dot ++ py "b")) = py "a__b".
Proof.
  split.
  - rewrite (proj1 (proj2 dot_pairs_replaced) (py "a..b.....c")
               [(py "a", 2%nat); (py "b", 5%nat)] (py "c"));
      [reflexivity | discriminate | reflexivity | reflexivity].
  - apply (proj2 (proj2 dot_pairs_replaced) (py "a") (py "b") 4%nat);
      [discriminate | discriminate | reflexivity | reflexivity | vm_compute; lia].
Defined.

(** C7, the claim as stated fails: four consecutive periods do not yield
    exactly one filler character, they yield two. *)
Lemma four_dots_give_two_fillers :
  sanitize_filename (PyStr (py "a....b")) <> py "a_b"
  /\ sanitize_filename (PyStr (py "a....b")) = py "a__b".
Proof. split; [discriminate | reflexivity]. Qed.

(** ** The materializer and the loop *)

Section ScraperFacts.

Variable upper_non_ascii : N -> pystr.
Variable markdownify : pystr -> pystr.

Abbreviation save := (save_game_page_as_markdown upper_non_ascii markdownify).
Abbreviation precompute := (save_precompute upper_non_ascii).

Ltac run_M :=
  unfold mbind, M_bind, mret, M_ret, os_makedirs, os_path_exists, fetch_html,
    write_file, os_remove, time_sleep, log in *;
  cbn [fs trace fst snd] in *.

(** Unfold one call, keeping the precomputed record [p] abstract. *)
Ltac unfold_save g base p :=
  unfold save_game_page_as_markdown in *;
  let Hp := fresh in
  remember (save_precompute upper_non_ascii g base) as p eqn:Hp;
  clear Hp; run_M.

Lemma fetches_app a b : fetches (a ++ b) = (fetches a + fetches b)%nat.
Proof. unfold fetches. now rewrite List.filter_app, length_app. Qed.

Lemma sleeps_app a b : sleeps (a ++ b) = (sleeps a + sleeps b)%nat.
Proof. unfold sleeps. now rewrite List.filter_app, length_app. Qed.

Lemma os_path_join_longer d f :
  f <> [] -> starts_with 47 f = false -> os_path_join d f <> d.
Proof.
  intros Hf Hs. unfold os_path_join. rewrite Hs.
  destruct (last d) as [c|] eqn:E.
  - destruct (c =? 47); intros H; apply (f_equal length) in H;
      rewrite length_app in H; destruct f; simpl in H; try congruence; lia.
  - apply last_None in E. now subst.
Qed.

Lemma sanitize_no_leading_slash name :
  starts_with 47 (sanitize_filename name ++ py ".md") = false.
Proof.
  pose proof (sanitize_valid name) as Hv.
  pose proof (sanitize_nonempty name) as Hn.
  destruct (sanitize_filename name) as [|c r]; [congruence|].
  cbn [forallb] in Hv. apply andb_true_iff in Hv as [Hc _].
  cbn [app starts_with]. destruct (N.eqb_spec c 47) as [->|]; [discriminate | reflexivity].
Qed.

(** The file is never the bucket directory itself. *)
Lemma filepath_not_dir g base :
  output_filepath (precompute g base) <> output_dir (precompute g base).
Proof.
  unfold save_precompute. cbn [output_filepath output_dir].
  apply os_path_join_longer; [|apply sanitize_no_leading_slash].
  intros H. apply app_eq_nil in H as [_ H]. discriminate.
Qed.

(** A call whose destination exists, in a bucket directory that no regular
    file occupies. *)
Lemma save_skips e g base w :
  let p := precompute g base in
  is_Some (fs w !! output_filepath p) ->
  (forall t, fs w !! output_dir p <> Some (File t)) ->
  exists fs',
    save e g base w =
      (inr (true, false),
       World fs' ((trace w ++ [EvMakedirs (output_dir p)])
                    ++ [EvExists (output_filepath p) true]))
    /\ fs' !! output_filepath p = fs w !! output_filepath p
    /\ fs' !! output_dir p = Some Dir.
Proof.
  intros p0 Hex Hdir. subst p0.
  pose proof (filepath_not_dir g base) as Hne.
  unfold_save g base p.
  destruct (fs w !! output_dir p) as [[|t]|] eqn:Ed.
  - rewrite bool_decide_true by assumption.
    eexists. split; [reflexivity|]. now split.
  - exfalso. exact (Hdir t eq_refl).
  - cbn [fs trace].
    rewrite bool_decide_true by now rewrite lookup_insert_ne.
    eexists. split; [reflexivity|]. cbn [fs].
    split; [now rewrite lookup_insert_ne | now rewrite lookup_insert_eq].
Qed.

(** What a successful call leaves behind. *)
Lemma save_success_post e g base w rm w1 :
  let p := precompute g base in
  save e g base w = (inr (true, rm), w1) ->
  is_Some (fs w1 !! output_filepath p)
  /\ fs w1 !! output_dir p = Some Dir
  /\ fetches (trace w1) = (fetches (trace w) + (if rm then 1 else 0))%nat
  /\ (rm = true <-> fs w !! output_filepath p = None).
Proof.
  intros p0. subst p0.
  pose proof (filepath_not_dir g base) as Hne.
  unfold_save g base p.
  assert (Hne' : output_dir p <> output_filepath p) by congruence.
  assert (Hb : forall (m : gmap pystr node) k,
             bool_decide (is_Some (m !! k)) = false -> m !! k = None).
  { intros m k H. apply bool_decide_eq_false in H.
    now apply eq_None_not_Some. }
  destruct (fs w !! output_dir p) as [[|t]|] eqn:Ed; [| discriminate |];
    cbn [fs trace];
    match goal with
    | |- context [bool_decide (is_Some (?m !! ?k))] =>
        destruct (bool_decide (is_Some (m !! k))) eqn:Ef
    end.
  - intros [= <- <-]. cbn [fs trace]. apply bool_decide_eq_true in Ef.
    rewrite !fetches_app. cbn. repeat split; try assumption; try lia; try discriminate.
    intros H. rewrite H in Ef. now destruct Ef.
  - apply Hb in Ef.
    destruct (http_get e _ (gi_url g)) as [tree|]; [|discriminate].
    cbn [fs trace].
    destruct (disk_write e _ _ _) as [|part|part]; cbn [fs trace].
    + intros [= <- <-]. cbn [fs trace]. rewrite !fetches_app. cbn.
      rewrite lookup_insert_eq, lookup_insert_ne by assumption.
      repeat split; eauto; lia.
    + destruct part; cbn [fs trace];
        repeat match goal with
               | |- context [match ?x with _ => _ end] => destruct x
               end; discriminate.
    + discriminate.
  - intros [= <- <-]. cbn [fs trace]. apply bool_decide_eq_true in Ef.
    rewrite lookup_insert_ne in Ef by assumption.
    rewrite !fetches_app. cbn.
    rewrite lookup_insert_eq, lookup_insert_ne by assumption.
    repeat split; try assumption; try lia; try discriminate.
    intros H. rewrite H in Ef. now destruct Ef.
  - apply Hb in Ef. rewrite lookup_insert_ne in Ef by assumption.
    destruct (http_get e _ (gi_url g)) as [tree|]; [|discriminate].
    cbn [fs trace].
    destruct (disk_write e _ _ _) as [|part|part]; cbn [fs trace].
    + intros [= <- <-]. cbn [fs trace]. rewrite !fetches_app. cbn.
      rewrite lookup_insert_eq, lookup_insert_ne, lookup_insert_eq by assumption.
      repeat split; eauto; lia.
    + destruct part; cbn [fs trace];
        repeat match goal with
               | |- context [match ?x with _ => _ end] => destruct x
               end; discriminate.
    + discriminate.
Qed.

(** C1, as amended. A call that finds a file at its destination (in a bucket
    directory that no regular file occupies) returns (true, false) and makes
    no network request. Hence, when a call returns success, the next call on
    the same entry and output root returns (true, false) and makes no
    request: the two calls make one request in all when the destination did
    not exist before the first, and none when it did. *)
Theorem resumability :
  forall e g base w,
    let p := precompute g base in
    (is_Some (fs w !! output_filepath p) ->
     (forall t, fs w !! output_dir p <> Some (File t)) ->
     exists w', save e g base w = (inr (true, false), w')
                /\ fetches (trace w') = fetches (trace w))
    /\ (forall rm w1,
          save e g base w = (inr (true, rm), w1) ->
          exists w2,
            save e g base w1 = (inr (true, false), w2)
            /\ fetches (trace w2) = fetches (trace w1)
            /\ fetches (trace w1)
                = (fetches (trace w) + (if rm then 1 else 0))%nat
            /\ (rm = true <-> fs w !! output_filepath p = None)).
Proof.
  intros e g base w p.
  assert (Hskip : forall w0,
            is_Some (fs w0 !! output_filepath p) ->
            (forall t, fs w0 !! output_dir p <> Some (File t)) ->
            exists w', save e g base w0 = (inr (true, false), w')
                       /\ fetches (trace w') = fetches (trace w0)).
  { intros w0 Hex Hdir.
    destruct (save_skips e g base w0 Hex Hdir) as (fs' & Hrun & _).
    eexists. split; [exact Hrun|]. cbn [trace].
    rewrite !fetches_app. cbn. lia. }
  split; [apply Hskip|].
  intros rm w1 Hrun.
  apply save_success_post in Hrun as (Hex & Hdir & Hn & Hrm). fold p in Hex, Hdir, Hrm.
  destruct (Hskip w1 Hex) as (w2 & Hrun2 & Hn2).
  { intros t. rewrite Hdir. discriminate. }
  exists w2. repeat split; try assumption; apply Hrm.
Qed.

(** Destruct every [match] the unfolded call still holds. *)
Ltac split_run :=
  repeat (match goal with
          | |- context [match ?x with _ => _ end] =>
              lazymatch x with
              | context [match _ with _ => _ end] => fail
              | _ => destruct x eqn:?
              end
          end;
          cbn [fs trace fst snd]).

(** C3. Destination independence from page content: the bucket directory
    and the destination file are fixed by the output root and the catalog
    title alone. Whatever the URL, the network, the disk and the world, a
    call first ensures that directory, then checks that destination, and
    only afterwards fetches or writes, and it writes (or removes) at that
    same destination, with at most one request. The only other run is the
    one in which creating the directory raises. *)
Theorem destination_independent_of_page :
  forall base title,
  exists dir dest,
    dest = os_path_join dir
             (sanitize_filename (default (PyStr (py "Unknown Title")) title)
                ++ py ".md")
    /\ forall e url w,
         let run := save e (GameInfo url title) base w in
         (exists found rest,
            trace (snd run)
              = trace w ++ EvMakedirs dir :: EvExists dest found :: rest
            /\ Forall (after_check dest) rest
            /\ (fetches rest <= 1)%nat)
         \/ (fst run = inl (FileExistsError dir)
             /\ trace (snd run) = trace w ++ [EvMakedirs dir]).
Proof.
  intros base title.
  exists (output_dir (precompute (GameInfo [] title) base)),
         (output_filepath (precompute (GameInfo [] title) base)).
  split; [reflexivity|].
  intros e url w run. subst run.
  change (precompute (GameInfo [] title) base)
    with (precompute (GameInfo url title) base).
  unfold_save (GameInfo url title) base p.
  cbn [gi_url].
  split_run;
    first [ right; split; reflexivity
          | left; eexists _, _; rewrite <- !app_assoc;
            split; [reflexivity|]; split;
            [ repeat constructor | cbn; lia ] ].
Qed.

(** X20. What a failing call leaves, for an entry whose bucket directory is
    there and whose destination does not exist. When the fetch fails the
    call returns (false, true) and there is still nothing at the
    destination. When the write fails with an I/O error the call attempts to
    remove the destination, whatever the removal does, and returns
    (false, true): nothing is left when the removal succeeds. When the write
    fails with any other exception the call returns (false, true) as well,
    but attempts no removal: what the write left stays. *)
Theorem failure_handling :
  forall e g base w,
    let p := precompute g base in
    let dest := output_filepath p in
    let url := gi_url g in
    let tr2 := (trace w ++ [EvMakedirs (output_dir p)]) ++ [EvExists dest false] in
    fs w !! dest = None ->
    fs w !! output_dir p = Some Dir ->
    (http_get e tr2 url = None ->
       exists w',
         save e g base w = (inr (false, true), w')
         /\ trace w' = tr2 ++ [EvFetch url false]
         /\ fs w' = fs w)
    /\ (forall tree part,
          http_get e tr2 url = Some tree ->
          let tr3 := tr2 ++ [EvFetch url true] in
          let text := render markdownify (original_title p) tree in
          (disk_write e tr3 dest text = IOFailed part ->
             exists ok w',
               save e g base w = (inr (false, true), w')
               /\ trace w' = (tr3 ++ [EvWrite dest text (IOFailed part)])
                                ++ [EvRemove dest ok]
               /\ fs w' !! dest = (if ok : bool then None else File <$> part))
          /\ (disk_write e tr3 dest text = OtherFailed part ->
               exists w',
                 save e g base w = (inr (false, true), w')
                 /\ trace w' = tr3 ++ [EvWrite dest text (OtherFailed part)]
                 /\ fs w' !! dest = File <$> part)).
Proof.
  intros e g base w p0 dest url tr2 Hdest Hdir. subst p0 dest url tr2.
  unfold_save g base p.
  assert (Hno : forall (m : gmap pystr node) k,
             m !! k = None -> bool_decide (is_Some (m !! k)) = false).
  { intros m k ->. apply bool_decide_false, is_Some_None. }
  rewrite Hdir. cbn [fs trace].
  rewrite (Hno _ _ Hdest). cbn [fs trace]. split.
  - intros ->. cbn [fs trace]. eexists. repeat split.
  - intros tree part ->. cbn [fs trace bool_decide]. split.
    + rewrite bool_decide_true by eauto. intros ->.
      destruct part as [t|]; cbn [fs trace].
      * rewrite lookup_insert_eq.
        destruct (disk_remove e _ _); eexists _, _; cbn [fs trace];
          (split; [reflexivity|]); (split; [reflexivity|]).
        -- apply lookup_delete_eq.
        -- apply lookup_insert_eq.
      * rewrite Hdest. eexists false, _. repeat split. exact Hdest.
    + rewrite bool_decide_true by eauto. intros ->.
      eexists. split; [reflexivity|]. cbn [fs trace].
      split; [reflexivity|].
      destruct part; [apply lookup_insert_eq | exact Hdest].
Qed.

Lemma str_leb_single a b : str_leb [a] [b] = (a <=? b).
Proof.
  cbn [str_leb].
  destruct (N.ltb_spec a b), (N.eqb_spec a b), (N.leb_spec a b);
    try reflexivity; lia.
Qed.

(** C2. Bucket consistency: the category computed for an entry at filter
    time is the bucket under which the materializer stores it. Both apply
    one rule to the upper-cased first character of the sanitized title (a
    digit gives 0-9, a letter A to Z gives that letter, anything else gives
    the underscore); the letter filter keeps exactly the entries whose
    storage bucket is the requested category, and the materializer first
    ensures the directory of that bucket under the output root. *)
Theorem bucket_consistency :
  forall g base,
    let bucket := target_subdir (precompute g base) in
    current_category upper_non_ascii g = Some bucket
    /\ (forall c r u,
          sanitize_filename (default (PyStr (py "Unknown Title")) (gi_title g))
            = c :: r ->
          str_upper upper_non_ascii [c] = [u] ->
          bucket = if (48 <=? u) && (u <=? 57) then py "0-9"
                   else if (65 <=? u) && (u <=? 90) then [u]
                   else py "_")
    /\ (forall cat all,
          cat <> [] ->
          g ∈ filter_links upper_non_ascii (Some cat) all
          <-> g ∈ all /\ bucket = cat)
    /\ (forall e w,
          exists rest,
            trace (snd (save e g base w))
              = trace w ++ EvMakedirs (os_path_join base bucket) :: rest).
Proof.
  intros g base bucket.
  assert (Hcat : current_category upper_non_ascii g = Some bucket).
  { subst bucket. unfold current_category, save_precompute.
    cbn [target_subdir].
    pose proof (sanitize_nonempty
                  (default (PyStr (py "Unknown Title")) (gi_title g))) as Hn.
    destruct (sanitize_filename _) as [|c r]; [congruence | reflexivity]. }
  split; [exact Hcat|]. split; [|split].
  - intros c r u Hs Hu. subst bucket. unfold save_precompute.
    cbn [target_subdir]. rewrite Hs, Hu.
    change (py "0") with [48]. change (py "9") with [57].
    change (py "A") with [65]. change (py "Z") with [90].
    now rewrite !str_leb_single.
  - intros cat all Hc. unfold filter_links.
    destruct cat as [|c0 cat]; [congruence|].
    rewrite !list_elem_of_In, filter_In, bool_decide_eq_true, Hcat.
    split; intros [H1 H2]; (split; [exact H1 | congruence]).
  - intros e w. subst bucket.
    change (os_path_join base (target_subdir (precompute g base)))
      with (output_dir (precompute g base)).
    unfold_save g base p.
    split_run; eexists; rewrite <- ?app_assoc; reflexivity.
Qed.

(** A call only appends to the trace, and never sleeps. *)
Lemma save_appends e g base w :
  exists t, trace (snd (save e g base w)) = trace w ++ t /\ sleeps t = 0%nat.
Proof.
  unfold_save g base p.
  split_run; eexists; rewrite <- ?app_assoc; split; reflexivity.
Qed.

(** C4, as amended. In a run over three entries in which the first and the
    third call make a request and the second call makes none, the rate
    limiter runs exactly once: after the first entry, not after the second
    (no request was made) and not after the third (it is the last one). *)
Theorem rate_limiter_gating :
  forall e base g1 g2 g3 w s1 s2 s3 w1 w2 w3,
    save e g1 base w = (inr (s1, true), w1) ->
    save e g2 base (log EvSleep w1) = (inr (s2, false), w2) ->
    save e g3 base w2 = (inr (s3, true), w3) ->
    exists counts t1 t2 t3,
      process_games upper_non_ascii markdownify e base [g1; g2; g3] 0 3 (0, 0)%nat w
        = (inr counts, w3)
      /\ trace w3 = trace w ++ t1 ++ [EvSleep] ++ t2 ++ t3
      /\ trace w1 = trace w ++ t1
      /\ trace w2 = trace w ++ t1 ++ [EvSleep] ++ t2
      /\ sleeps t1 = 0%nat /\ sleeps t2 = 0%nat /\ sleeps t3 = 0%nat
      /\ sleeps (trace w3) = (sleeps (trace w) + 1)%nat
      /\ (fst counts + snd counts = 3)%nat.
Proof.
  intros e base g1 g2 g3 w s1 s2 s3 w1 w2 w3 H1 H2 H3.
  destruct (save_appends e g1 base w) as (t1 & Ht1 & Hs1).
  destruct (save_appends e g2 base (log EvSleep w1)) as (t2 & Ht2 & Hs2).
  destruct (save_appends e g3 base w2) as (t3 & Ht3 & Hs3).
  rewrite H1 in Ht1. rewrite H2 in Ht2. rewrite H3 in Ht3.
  unfold log in Ht2. cbn [snd trace] in Ht1, Ht2, Ht3.
  eexists _, t1, t2, t3.
  split.
  { cbn [process_games]. run_M. rewrite H1.
    change (true && (Z.of_nat 0 <? Z.of_nat 3 - 1)%Z) with true.
    cbn iota beta. rewrite H2.
    change (false && (Z.of_nat 1 <? Z.of_nat 3 - 1)%Z) with false.
    cbn iota beta. rewrite H3.
    change (true && (Z.of_nat 2 <? Z.of_nat 3 - 1)%Z) with false.
    cbn iota beta. reflexivity. }
  assert (E3 : trace w3 = trace w ++ t1 ++ [EvSleep] ++ t2 ++ t3).
  { rewrite Ht3, Ht2, Ht1. now rewrite <- !app_assoc. }
  repeat split; try assumption.
  - rewrite Ht2, Ht1. now rewrite <- !app_assoc.
  - rewrite E3, !sleeps_app, Hs1, Hs2, Hs3. cbn. lia.
  - cbn [fst snd]. destruct s1, s2, s3; cbn; lia.
Qed.

(** The events of one call: it starts by ensuring the directory, never
    pauses, and ends with a request event when it reports a request. *)
Lemma save_shape e g base w :
  exists d r,
    trace (snd (save e g base w)) = trace w ++ EvMakedirs d :: r
    /\ quiet (EvMakedirs d :: r) = true
    /\ match fst (save e g base w) with
       | inr (_, true) =>
           exists ev, last (EvMakedirs d :: r) = Some ev
                      /\ request_kind ev = true
       | _ => True
       end.
Proof.
  unfold_save g base p.
  split_run; eexists _, _; rewrite <- ?app_assoc;
    (split; [reflexivity|]); (split; [reflexivity|]);
    try exact I; eexists; split; reflexivity.
Qed.

Lemma gated_quiet prev t b :
  quiet t = true ->
  gated prev (t ++ b)
  = gated (match last t with Some ev => Some ev | None => prev end) b.
Proof.
  revert prev. induction t as [|ev t IH]; intros prev Hq; [reflexivity|].
  cbn [quiet forallb] in Hq. apply andb_true_iff in Hq as [Hev Hq].
  cbn [app gated]. apply negb_true_iff in Hev. rewrite Hev. cbn [andb].
  rewrite (IH (Some ev) Hq).
  destruct t as [|ev' t]; [reflexivity|].
  rewrite last_cons_cons.
  destruct (last (ev' :: t)) eqn:E; [reflexivity|].
  apply last_None in E. discriminate.
Qed.

Lemma gated_quiet_all prev t : quiet t = true -> gated prev t = true.
Proof.
  intros Hq. rewrite <- (app_nil_r t). now rewrite gated_quiet.
Qed.

(** The loop, from any index: the events it appends are gated. *)
Lemma process_games_gated e base games :
  forall i total counts w,
    (i + length games = total)%nat ->
    exists t,
      trace (snd (process_games upper_non_ascii markdownify e base games
                    i total counts w)) = trace w ++ t
      /\ (forall prev, gated prev t = true)
      /\ (games <> [] -> exists d r, t = EvMakedirs d :: r).
Proof.
  induction games as [|g rest IH]; intros i total counts w Hlen.
  - exists []. cbn. rewrite app_nil_r. repeat split. congruence.
  - cbn [process_games]. run_M.
    destruct (save_shape e g base w) as (d & r & Htr & Hq & Hlast).
    destruct (save e g base w) as [[x | [success rm]] w1] eqn:Es;
      cbn [fst snd] in *.
    + exists (EvMakedirs d :: r). split; [exact Htr|].
      split; [intros prev; now apply gated_quiet_all | eauto].
    + destruct (rm && (Z.of_nat i <? Z.of_nat total - 1)%Z) eqn:Ec.
      * apply andb_true_iff in Ec as [-> Hi]. apply Z.ltb_lt in Hi.
        destruct Hlast as (ev & Hev & Hreq).
        cbn [length] in Hlen.
        edestruct (IH (S i) total) as (t2 & Ht2 & Hg2 & Hs2); [lia|].
        rewrite Ht2. cbn [trace]. rewrite Htr.
        exists ((EvMakedirs d :: r) ++ EvSleep :: t2).
        split; [now rewrite <- !app_assoc|].
        split; [|eauto].
        intros prev. rewrite gated_quiet, Hev by exact Hq.
        cbn [gated is_sleep]. rewrite Hreq, Hg2.
        destruct Hs2 as (d2 & r2 & ->); [|reflexivity].
        destruct rest; [cbn in Hlen; lia | discriminate].
      * edestruct (IH (S i) total) as (t2 & Ht2 & Hg2 & Hs2);
          [cbn [length] in Hlen; lia|].
        rewrite Ht2. rewrite Htr.
        exists ((EvMakedirs d :: r) ++ t2).
        split; [now rewrite <- !app_assoc|].
        split; [|eauto].
        intros prev. rewrite gated_quiet by exact Hq. apply Hg2.
Qed.

(** X1. Rate-limiter gating for every run of the loop of [main]: in the events
    the run appends, each pause comes right after an event of a call that
    made a request (a fetch, a write or a removal, never a mere existence
    check), and each pause is followed by a further event, so none comes
    after the last entry. *)
Theorem limiter_gated :
  forall e base games counts w,
  exists t,
    trace (snd (process_games upper_non_ascii markdownify e base games
                  0 (length games) counts w)) = trace w ++ t
    /\ gated None t = true.
Proof.
  intros e base games counts w.
  destruct (process_games_gated e base games 0 (length games) counts w eq_refl)
    as (t & Ht & Hg & _).
  exists t. split; [exact Ht | apply Hg].
Qed.

(** X2. The request flag of a call that returns: it is false exactly when the
    destination already exists, and then the call succeeds without any
    fetch; when it is true the call made exactly one fetch. *)
Theorem request_made_iff_absent :
  forall e g base w success request_made w',
    save e g base w = (inr (success, request_made), w') ->
    (request_made = false
     <-> is_Some (fs w !! output_filepath (precompute g base)))
    /\ (request_made = false ->
        success = true /\ fetches (trace w') = fetches (trace w))
    /\ (request_made = true ->
        fetches (trace w') = S (fetches (trace w))).
Proof.
  intros e g base w success rm w'.
  pose proof (filepath_not_dir g base) as Hne.
  unfold_save g base p.
  assert (Hne' : output_dir p <> output_filepath p) by congruence.
  destruct (fs w !! output_dir p) as [[|t]|] eqn:Ed; [| discriminate |];
    cbn [fs trace];
    match goal with
    | |- context [bool_decide (is_Some (?m !! ?k))] =>
        destruct (bool_decide (is_Some (m !! k))) eqn:Ef
    end;
    [ apply bool_decide_eq_true in Ef
    | apply bool_decide_eq_false in Ef
    | apply bool_decide_eq_true in Ef; rewrite lookup_insert_ne in Ef by assumption
    | apply bool_decide_eq_false in Ef; rewrite lookup_insert_ne in Ef by assumption ];
    split_run; intros [= <- <- <-]; cbn [trace];
    rewrite !fetches_app; cbn;
    (split; [split; intros H | split; intros H]);
    try discriminate; try reflexivity; try assumption; try lia;
    try (split; [reflexivity | lia]);
    exfalso; first [exact (Ef H) | apply Ef; eauto].
Qed.

End ScraperFacts.

(** ** Concrete runs: counterexamples and witnesses *)

(** C1, the claim as stated fails: when the fetch fails, two calls on the
    same entry and output root make two requests, and the second call
    returns (false, true). *)
Lemma offline_calls_fetch_twice :
  let first := run_save offline (entry "Foo") fresh in
  let second := run_save offline (entry "Foo") (snd first) in
  fst first = inr (false, true)
  /\ fst second = inr (false, true)
  /\ fetches (trace (snd second)) = 2%nat.
Proof. vm_compute. repeat split. Qed.

(** C1 at a concrete run: the first call fetches and writes, the second
    returns (true, false), and one request is made in all. *)
Lemma resumability_witness :
  exists w2,
    run_save online (entry "Foo") (snd (run_save online (entry "Foo") fresh))
      = (inr (true, false), w2)
    /\ fetches (trace w2) = 1%nat.
Proof.
  destruct (resumability ascii_only_upper keep_html online (entry "Foo")
              (py "out") fresh) as [_ H].
  destruct (H true (snd (run_save online (entry "Foo") fresh)))
    as (w2 & Hrun & Hsame & Hone & _); [vm_compute; reflexivity|].
  exists w2. split; [exact Hrun|].
  rewrite Hsame, Hone. reflexivity.
Defined.

(** C4, the claim as stated fails: in a run over three entries where the
    second is already saved and the first and the third are fetched, the
    rate limiter does not run twice. It runs once, between the two requests,
    and nothing follows the writing of the third entry. *)
Lemma limiter_runs_once_for_three :
  let games := [entry "Abc"; entry "Bar"; entry "Cde"] in
  let run := run_main online games bar_saved in
  is_Some (fs bar_saved !! py "out/B/Bar.md")
  /\ fst run = inr (Some (3, 0)%nat)
  /\ requests_and_pauses (trace (snd run))
     = [EvFetch (gi_url (entry "Abc")) true; EvSleep;
        EvFetch (gi_url (entry "Cde")) true]
  /\ sleeps (trace (snd run)) = 1%nat
  /\ sleeps (trace (snd run)) <> 2%nat.
Proof.
  intros games run. split; [now exists (File (py "old"))|].
  vm_compute. repeat split. discriminate.
Qed.

Lemma rate_limiter_gating_witness :
  exists counts w3,
    process_games ascii_only_upper keep_html online (py "out")
      [entry "Abc"; entry "Bar"; entry "Cde"] 0 3 (0, 0)%nat bar_saved
      = (inr counts, w3)
    /\ sleeps (trace w3) = 1%nat.
Proof.
  pose (w1 := snd (run_save online (entry "Abc") bar_saved)).
  pose (w2 := snd (run_save online (entry "Bar") (log EvSleep w1))).
  pose (w3 := snd (run_save online (entry "Cde") w2)).
  destruct (rate_limiter_gating ascii_only_upper keep_html online (py "out")
              (entry "Abc") (entry "Bar") (entry "Cde") bar_saved
              true true true w1 w2 w3)
    as (counts & t1 & t2 & t3 & Hrun & _ & _ & _ & _ & _ & _ & Hs & _);
    [vm_compute; reflexivity | vm_compute; reflexivity
     | vm_compute; reflexivity |].
  exists counts, w3. split; [exact Hrun | exact Hs].
Defined.

(** C5, at the failing input: the entry Foo on an empty output tree, when
    the page is fetched and the write stops, after the file was created,
    with an exception that is not an I/O error. The claim wants a removal
    of the partly written file to be attempted. The call returns
    (false, true) without any attempt to remove it, and the file stays, so
    that the next call on the entry takes it for a saved document and
    returns (true, false). When the same write stops with an I/O error
    instead, the removal is attempted and nothing is left. *)
Theorem other_write_failure_leaves_file :
  let run := run_save odd_failure (entry "Foo") fresh in
  let sibling := run_save disk_full (entry "Foo") fresh in
  fs fresh !! py "out/F/Foo.md" = None
  /\ fst run = inr (false, true)
  /\ last (trace (snd run))
     = Some (EvWrite (py "out/F/Foo.md") (py "<p>Hello</p>")
               (OtherFailed (Some [])))
  /\ List.filter is_remove (trace (snd run)) = []
  /\ fs (snd run) !! py "out/F/Foo.md" = Some (File [])
  /\ fst (run_save odd_failure (entry "Foo") (snd run)) = inr (true, false)
  /\ fst sibling = inr (false, true)
  /\ last (trace (snd sibling)) = Some (EvRemove (py "out/F/Foo.md") true)
  /\ fs (snd sibling) !! py "out/F/Foo.md" = None.
Proof. vm_compute. repeat split. Qed.

Lemma failure_handling_witness :
  exists ok w',
    run_save disk_full (entry "Foo") bucket_ready = (inr (false, true), w')
    /\ last (trace w') = Some (EvRemove (py "out/F/Foo.md") ok)
    /\ fs w' !! py "out/F/Foo.md"
       = (if ok : bool then None else Some (File (py "<p>"))).
Proof.
  destruct (failure_handling ascii_only_upper keep_html disk_full
              (entry "Foo") (py "out") bucket_ready) as [_ H];
    [vm_compute; reflexivity | vm_compute; reflexivity |].
  destruct (H hello (Some (py "<p>")) eq_refl) as [Hio _].
  destruct (Hio eq_refl) as (ok & w' & Hrun & Htr & Hfs).
  exists ok, w'. split; [exact Hrun|]. split; [|exact Hfs].
  rewrite Htr. apply last_snoc.
Defined.

Lemma request_made_iff_absent_witness :
  exists w',
    run_save online (entry "Bar") bar_saved = (inr (true, false), w')
    /\ fetches (trace w') = 0%nat.
Proof.
  pose (w' := snd (run_save online (entry "Bar") bar_saved)).
  destruct (request_made_iff_absent ascii_only_upper keep_html online
              (entry "Bar") (py "out") bar_saved true false w')
    as (_ & H & _); [vm_compute; reflexivity|].
  exists w'. split; [vm_compute; reflexivity|].
  now destruct (H eq_refl) as [_ ->].
Defined.

(** ** More on the sanitizer: the names it leaves alone *)

Section SanitizeFixpoints.

Lemma sub_dotdot_id (s : pystr) : has_dotdot s = false -> sub_dotdot s = s.
Proof.
  induction s as [ | c | r IH | c1 c2 r H IH] using sub_dotdot_scan; intros Hs.
  - reflexivity.
  - reflexivity.
  - discriminate.
  - rewrite sub_dotdot_step by assumption.
    rewrite has_dotdot_cons, H in Hs. cbn [orb] in Hs.
    now rewrite IH.
Qed.

Lemma has_dotdot_inv (s : pystr) :
  has_dotdot s = true -> exists pre post, s = pre ++ dot :: dot :: post.
Proof.
  induction s as [|c1 [|c2 r] IH]; [discriminate | discriminate |].
  rewrite has_dotdot_cons. intros H. apply orb_true_iff in H as [H | H].
  - apply andb_true_iff in H as [H1 H2]. apply N.eqb_eq in H1, H2. subst.
    now exists [], r.
  - destruct (IH H) as (pre & post & E). exists (c1 :: pre), post.
    now rewrite E.
Qed.

Lemma sanitize_has_no_dotdot name : has_dotdot (sanitize_filename name) = false.
Proof.
  destruct (has_dotdot (sanitize_filename name)) eqn:E; [|reflexivity].
  apply has_dotdot_inv in E as (pre & post & E).
  now apply sanitize_no_dotdot in E.
Qed.

Lemma sub_dotdot_length (s : pystr) : (length (sub_dotdot s) <= length s)%nat.
Proof.
  induction s as [ | c | r IH | c1 c2 r H IH] using sub_dotdot_scan.
  - reflexivity.
  - reflexivity.
  - rewrite sub_dotdot_pair. cbn [length]. lia.
  - rewrite sub_dotdot_step by assumption. cbn [length] in *. lia.
Qed.

Lemma clean_length t : (length (clean t) <= length t)%nat.
Proof.
  unfold clean.
  destruct (strip_infix (py ". ") (sub_dotdot (remove_invalid t)))
    as (a & b & E).
  apply (f_equal length) in E. rewrite !length_app in E.
  pose proof (sub_dotdot_length (remove_invalid t)).
  pose proof (filter_length_le (fun c => negb (is_invalid c)) t).
  unfold remove_invalid in *. lia.
Qed.

Lemma last_rev (l : pystr) : last (rev l) = head l.
Proof. destruct l as [|x l]; [reflexivity|]. cbn [rev]. apply last_snoc. Qed.

Lemma head_rev (l : pystr) : head (rev l) = last l.
Proof. rewrite <- (rev_involutive l) at 2. now rewrite last_rev. Qed.

Lemma strip_last chars s y :
  last (strip chars s) = Some y -> char_in chars y = false.
Proof.
  unfold strip, rstrip. rewrite last_rev.
  destruct (lstrip chars (rev (lstrip chars s))) as [|c r] eqn:E; [discriminate|].
  intros [= <-]. now apply lstrip_head in E.
Qed.

Lemma strip_first chars s x :
  head (strip chars s) = Some x -> char_in chars x = false.
Proof.
  destruct (strip chars s) as [|c r] eqn:E; [discriminate|].
  intros [= <-]. now apply strip_head in E.
Qed.

(** A string whose two ends are kept is left as it is by [strip]. *)
Lemma strip_ends chars s x y :
  head s = Some x -> last s = Some y ->
  char_in chars x = false -> char_in chars y = false ->
  strip chars s = s.
Proof.
  intros Hx Hy Px Py. unfold strip.
  destruct s as [|c s]; [discriminate|]. injection Hx as ->.
  cbn [lstrip]. rewrite Px.
  unfold rstrip. apply last_Some in Hy as [l' Hl]. rewrite Hl.
  rewrite rev_unit. cbn [lstrip]. rewrite Py.
  now rewrite <- rev_unit, rev_involutive.
Qed.

Lemma safe_name_parts t :
  safe_name t = true ->
  exists x y,
    head t = Some x /\ last t = Some y
    /\ char_in (py ". ") x = false /\ char_in (py ". ") y = false
    /\ forallb valid t = true /\ has_dotdot t = false
    /\ (length t <= max_len)%nat.
Proof.
  unfold safe_name.
  destruct (head t) as [x|]; [|discriminate].
  destruct (last t) as [y|]; [|discriminate].
  intros H. repeat (apply andb_true_iff in H as [H ?]).
  exists x, y. repeat split; try assumption.
  - now apply negb_true_iff.
  - now apply negb_true_iff.
  - now apply negb_true_iff.
  - now apply Nat.leb_le.
Qed.

Lemma safe_name_intro t x y :
  head t = Some x -> last t = Some y ->
  char_in (py ". ") x = false -> char_in (py ". ") y = false ->
  forallb valid t = true -> has_dotdot t = false ->
  (length t <= max_len)%nat ->
  safe_name t = true.
Proof.
  intros Hx Hy Px Py Hv Hd Hl. unfold safe_name.
  rewrite Hx, Hy, Px, Py, Hv, Hd. cbn [negb andb].
  now apply Nat.leb_le.
Qed.

Lemma clean_safe t : safe_name t = true -> clean t = t.
Proof.
  intros H. apply safe_name_parts in H
    as (x & y & Hx & Hy & Px & Py & Hv & Hd & _).
  unfold clean. rewrite remove_invalid_id, sub_dotdot_id by assumption.
  now apply (strip_ends _ t x y).
Qed.

(** What the cleaning steps return, when it is not empty and fits the cap,
    is a safe name. *)
Lemma clean_is_safe t :
  clean t <> [] -> (length (clean t) <= max_len)%nat -> safe_name (clean t) = true.
Proof.
  intros Hne Hlen.
  destruct (head (clean t)) as [x|] eqn:Hx;
    [|destruct (clean t); [congruence | discriminate]].
  destruct (last (clean t)) as [y|] eqn:Hy;
    [|apply last_None in Hy; congruence].
  apply (safe_name_intro _ x y); try assumption.
  - now apply strip_first in Hx.
  - now apply strip_last in Hy.
  - apply (infix_forallb _ _ _ (strip_infix _ _)).
    apply sub_dotdot_forallb; [reflexivity | apply remove_invalid_valid].
  - destruct (has_dotdot (clean t)) eqn:E; [|reflexivity].
    apply has_dotdot_inv in E as (pre & post & E). exfalso.
    revert E. apply (infix_free _ _ (strip_infix _ _)). apply sub_dotdot_free.
Qed.

(** A safe name is returned as it is. *)
Lemma safe_name_fixed t : safe_name t = true -> sanitize_filename (PyStr t) = t.
Proof.
  intros H. pose proof (clean_safe t H) as Hc.
  apply safe_name_parts in H as (x & y & Hx & _ & _ & _ & _ & _ & Hl).
  assert (Ht : t <> []) by (intros ->; discriminate).
  change (sanitize_filename (PyStr t)) with (sanitize_str t).
  rewrite sanitize_str_steps, Hc, truncate_short by assumption.
  now destruct t.
Qed.

(** X4. The fixed points of [sanitize_filename] are exactly the safe names:
    a title is returned unchanged if and only if it is not empty, has at
    most 100 characters, holds none of the deleted characters and no two
    adjacent periods, and neither starts nor ends with a period or a
    space. *)
Theorem sanitize_fixpoint_iff :
  forall t, sanitize_filename (PyStr t) = t <-> safe_name t = true.
Proof.
  intros t. split.
  - intros E.
    destruct (sanitize_cases (PyStr t)) as [H | [H | (t' & [= <-] & Ht & Hn & H)]].
    + rewrite H in E. now subst t.
    + rewrite H in E. now subst t.
    + rewrite H in E.
      assert (Hlen : (length (clean t) <= max_len)%nat).
      { destruct (Nat.le_gt_cases (length (clean t)) max_len) as [|Hgt];
          [assumption|].
        pose proof (truncate_length (clean t)) as Hl. rewrite E in Hl.
        pose proof (clean_length t). lia. }
      rewrite truncate_short in E by exact Hlen.
      rewrite <- E. apply clean_is_safe; [|exact Hlen].
      rewrite E. exact Ht.
  - apply safe_name_fixed.
Qed.

(** X5. When the cleaned form of a title fits the cap, sanitizing is
    idempotent: the identifier it returns is returned unchanged when it is
    sanitized again. *)
Theorem sanitize_idempotent_under_cap :
  forall t,
    (length (clean t) <= 100)%nat ->
    sanitize_filename (PyStr (sanitize_filename (PyStr t)))
    = sanitize_filename (PyStr t).
Proof.
  intros t Hlen. apply safe_name_fixed.
  destruct t as [|c t]; [reflexivity|].
  change (sanitize_filename (PyStr (c :: t))) with (sanitize_str (c :: t)).
  rewrite sanitize_str_steps, truncate_short by (assumption || discriminate).
  destruct (clean (c :: t)) as [|d r] eqn:E; [reflexivity|].
  rewrite <- E. apply clean_is_safe; rewrite ?E; [discriminate | exact Hlen].
Qed.

Lemma sanitize_idempotent_under_cap_witness :
  sanitize_filename (PyStr (sanitize_filename (PyStr (py " Foo: the ..game?. "))))
  = py "Foo the _game".
Proof.
  rewrite (sanitize_idempotent_under_cap (py " Foo: the ..game?. "));
    [reflexivity | vm_compute; lia].
Defined.

End SanitizeFixpoints.

(** ** More on the materializer and the loop *)

Section CoverageFacts.

Variable upper_non_ascii : N -> pystr.
Variable markdownify : pystr -> pystr.
Variable category_links : page -> list anchor.

Abbreviation save := (save_game_page_as_markdown upper_non_ascii markdownify).
Abbreviation precompute := (save_precompute upper_non_ascii).
Abbreviation loop := (process_games upper_non_ascii markdownify).

Ltac run_M :=
  unfold mbind, M_bind, mret, M_ret, os_makedirs, os_path_exists, fetch_html,
    write_file, os_remove, time_sleep, log in *;
  cbn [fs trace fst snd] in *.

Ltac unfold_call g base p :=
  unfold save_game_page_as_markdown in *;
  let Hp := fresh in
  remember (save_precompute upper_non_ascii g base) as p eqn:Hp;
  clear Hp; run_M.

Ltac split_cases :=
  repeat (match goal with
          | |- context [match ?x with _ => _ end] =>
              lazymatch x with
              | context [match _ with _ => _ end] => fail
              | _ => destruct x eqn:?
              end
          end;
          cbn [fs trace fst snd]).

(** A call never changes or deletes what is already on disk. *)
Lemma save_keeps :
  forall e g base w path n,
    fs w !! path = Some n ->
    fs (snd (save e g base w)) !! path = Some n.
Proof.
  intros e g base w path n Hpath.
  unfold_call g base p.
  destruct (fs w !! output_dir p) as [[|t]|] eqn:Ed; cbn [fs trace];
    [ | exact Hpath | ];
    match goal with
    | |- context [bool_decide (is_Some (?m !! ?k))] =>
        destruct (bool_decide (is_Some (m !! k))) eqn:Ef
    end; cbn [fs trace snd].
  - exact Hpath.
  - apply bool_decide_eq_false, eq_None_not_Some in Ef.
    assert (Hne : output_filepath p <> path) by congruence.
    split_cases;
      rewrite ?lookup_delete_ne, ?lookup_insert_ne by assumption;
      exact Hpath.
  - assert (Hd : output_dir p <> path) by congruence.
    now rewrite lookup_insert_ne.
  - assert (Hd : output_dir p <> path) by congruence.
    apply bool_decide_eq_false, eq_None_not_Some in Ef.
    assert (Hne : output_filepath p <> path).
    { intros E. rewrite <- E in Hpath, Hd.
      rewrite lookup_insert_ne in Ef by assumption. congruence. }
    split_cases;
      rewrite ?lookup_delete_ne, ?lookup_insert_ne by assumption;
      exact Hpath.
Qed.

(** The destination of an entry depends on its sanitized title only. *)
Lemma precompute_paths g1 g2 base :
  filename_safe_title (precompute g1 base)
  = filename_safe_title (precompute g2 base) ->
  output_dir (precompute g1 base) = output_dir (precompute g2 base)
  /\ output_filepath (precompute g1 base) = output_filepath (precompute g2 base).
Proof.
  unfold save_precompute.
  cbn [filename_safe_title output_dir output_filepath].
  intros ->. split; reflexivity.
Qed.

(** X6. Colliding titles: when two entries sanitize to the same identifier
    and the call on the first one succeeds, the call on the second one
    returns (true, false) without any request, and the file keeps what the
    first call left: the second page is never fetched. *)
Theorem colliding_titles_second_skipped :
  forall e g1 g2 base w request_made w1,
    filename_safe_title (precompute g1 base)
    = filename_safe_title (precompute g2 base) ->
    save e g1 base w = (inr (true, request_made), w1) ->
    exists w2,
      save e g2 base w1 = (inr (true, false), w2)
      /\ fetches (trace w2) = fetches (trace w1)
      /\ fs w2 !! output_filepath (precompute g2 base)
         = fs w1 !! output_filepath (precompute g1 base).
Proof.
  intros e g1 g2 base w rm w1 Hsame Hrun.
  destruct (precompute_paths g1 g2 base Hsame) as [Hdir Hfile].
  apply save_success_post in Hrun as (Hex & Hd & _ & _).
  rewrite Hdir in Hd. rewrite Hfile in Hex.
  destruct (save_skips upper_non_ascii markdownify e g2 base w1 Hex)
    as (fs' & Hrun2 & Hkeep & _).
  { intros t. rewrite Hd. discriminate. }
  eexists. split; [exact Hrun2|]. cbn [fs trace]. split.
  - rewrite !fetches_app. cbn. lia.
  - now rewrite Hkeep, Hfile.
Qed.

(** X7. A call that returns (true, true) has fetched a page and left, at the
    destination, exactly the text rendered from that page; the write is the
    last thing it did. *)
Theorem save_written_content :
  forall e g base w w',
    save e g base w = (inr (true, true), w') ->
    let p := precompute g base in
    exists tree,
      http_get e ((trace w ++ [EvMakedirs (output_dir p)])
                    ++ [EvExists (output_filepath p) false]) (gi_url g)
        = Some tree
      /\ fs w' !! output_filepath p
         = Some (File (render markdownify (original_title p) tree))
      /\ last (trace w')
         = Some (EvWrite (output_filepath p)
                   (render markdownify (original_title p) tree) Written).
Proof.
  intros e g base w w' Hrun p0. subst p0. revert Hrun.
  unfold_call g base p.
  destruct (fs w !! output_dir p) as [[|t]|] eqn:Ed; cbn [fs trace];
    [ | discriminate | ];
    match goal with
    | |- context [bool_decide (is_Some (?m !! ?k))] =>
        destruct (bool_decide (is_Some (m !! k))) eqn:Ef
    end; cbn [fs trace]; try discriminate;
    (destruct (http_get e _ (gi_url g)) as [tree|] eqn:Eg; [|discriminate]);
    cbn [fs trace];
    (destruct (disk_write e _ _ _) as [|part|part] eqn:Ew; cbn [fs trace]);
    try discriminate;
    try (intros [= <-]; exists tree; cbn [fs trace];
         split; [reflexivity|]; split;
         [apply lookup_insert_eq | apply last_snoc]).
  all: split_cases; discriminate.
Qed.

Lemma makedirs_keeps dir w path n :
  fs w !! path = Some n -> fs (snd (os_makedirs dir w)) !! path = Some n.
Proof.
  intros H. unfold os_makedirs, log.
  destruct (fs w !! dir) as [[|t]|] eqn:Ed; cbn [snd fs]; try exact H.
  rewrite lookup_insert_ne by congruence. exact H.
Qed.

Lemma loop_keeps e base games :
  forall i total c w path n,
    fs w !! path = Some n ->
    fs (snd (loop e base games i total c w)) !! path = Some n.
Proof.
  induction games as [|g rest IH]; intros i total c w path n H; [exact H|].
  cbn [process_games]. run_M.
  pose proof (save_keeps e g base w path n H) as Hk.
  destruct (save e g base w) as [[x | [s rm]] w1]; cbn [snd] in *;
    [exact Hk|].
  destruct (rm && _); cbn beta iota; apply IH; exact Hk.
Qed.

Lemma get_game_links_run e url limit w :
  exists links,
    get_game_links category_links e url limit w
    = (inr links,
       World (fs w)
         (trace w ++ [EvFetch url (bool_decide (is_Some (http_get e (trace w) url)))])).
Proof.
  unfold get_game_links. run_M.
  destruct (http_get e (trace w) url) as [tree|]; [|now eexists].
  destruct limit as [n|]; [destruct (n =? 0)%Z|]; now eexists.
Qed.

(** X8. A whole run never changes or deletes what is already on disk:
    whatever the network and the disk do and however the run ends, every
    path that held a file or a directory before a call of
    [save_game_page_as_markdown], or before the whole of [main], holds the
    same one afterwards. In particular an existing document is never
    overwritten. *)
Theorem existing_files_preserved :
  (forall e g base w path n,
     fs w !! path = Some n ->
     fs (snd (save e g base w)) !! path = Some n)
  /\ (forall e letter limit out w path n,
       fs w !! path = Some n ->
       fs (snd (main_with_index upper_non_ascii markdownify category_links
                  e letter limit out w)) !! path = Some n).
Proof.
  split; [exact save_keeps|].
  intros e letter limit out w path n H.
  unfold main_with_index.
  pose proof (makedirs_keeps out w path n H) as H1.
  unfold mbind at 1. unfold M_bind at 1.
  destruct (os_makedirs out w) as [[x|[]] w1]; cbn [snd] in *; [exact H1|].
  unfold mbind, M_bind.
  destruct (get_game_links_run e INDEX_URL None w1) as (links & ->).
  unfold main_after_index.
  destruct links as [|g links]; [exact H1|].
  destruct (apply_limit limit _) as [|g' rest]; [exact H1|].
  unfold mbind, M_bind.
  pose proof (loop_keeps e out (g' :: rest) 0 (length (g' :: rest)) (0, 0)%nat
                (World (fs w1)
                   (trace w1 ++ [EvFetch INDEX_URL
                      (bool_decide (is_Some (http_get e (trace w1) INDEX_URL)))]))
                path n H1) as Hk.
  destruct (loop e out (g' :: rest) _ _ _ _) as [[x|c'] w2]; exact Hk.
Qed.

Lemma loop_tally e base games :
  forall i total c w c' w',
    loop e base games i total c w = (inr c', w') ->
    (fst c' + snd c' = fst c + snd c + length games)%nat.
Proof.
  induction games as [|g rest IH]; intros i total c w c' w' H.
  - cbn in H. injection H as <- _. cbn [length]. lia.
  - cbn [process_games] in H. run_M.
    destruct (save e g base w) as [[x | [s rm]] w1]; [discriminate|].
    destruct (rm && _); cbn beta iota in H; apply IH in H;
      destruct s; cbn [fst snd length] in *; lia.
Qed.

Lemma filter_links_length target all :
  (length (filter_links upper_non_ascii target all) <= length all)%nat.
Proof.
  unfold filter_links. destruct target as [[|c cat]|]; try lia.
  apply filter_length_le.
Qed.

Lemma slice_to_prefix {A} (n : Z) (l : list A) : slice_to n l `prefix_of` l.
Proof. unfold slice_to. destruct (n <? 0)%Z; apply prefix_take. Qed.

Lemma apply_limit_is_prefix limit links :
  apply_limit limit links `prefix_of` links.
Proof.
  unfold apply_limit. destruct limit as [n|]; [|reflexivity].
  destruct (n <? Z.of_nat (length links))%Z;
    [apply slice_to_prefix | reflexivity].
Qed.

Lemma apply_limit_cap n links :
  (0 <= n)%Z -> (length (apply_limit (Some n) links) <= Z.to_nat n)%nat.
Proof.
  intros Hn. unfold apply_limit, slice_to.
  destruct (Z.ltb_spec n (Z.of_nat (length links))); [|lia].
  destruct (Z.ltb_spec n 0); [lia|]. rewrite length_take. lia.
Qed.

(** X9. The count limit only drops entries from the end. The list it
    returns is a prefix of the list it is given; without a limit it is the
    whole list, a limit that is not negative keeps at most that many
    entries, and a negative limit -k is not rejected: it drops the last k
    entries. *)
Theorem apply_limit_prefix :
  forall limit links,
    apply_limit limit links `prefix_of` links
    /\ length (apply_limit limit links)
       = match limit with
         | None => length links
         | Some n =>
             if (n <? 0)%Z then (length links - Z.to_nat (- n))%nat
             else Nat.min (Z.to_nat n) (length links)
         end.
Proof.
  intros limit links. unfold apply_limit.
  destruct limit as [n|]; [|split; reflexivity].
  destruct (Z.ltb_spec n (Z.of_nat (length links))) as [Hlt | Hge].
  - split; [apply slice_to_prefix|]. unfold slice_to.
    destruct (Z.ltb_spec n 0); rewrite length_take; lia.
  - split; [reflexivity|].
    destruct (Z.ltb_spec n 0); lia.
Qed.

Lemma processed_length letter limit all :
  (length (apply_limit limit
             (filter_links upper_non_ascii
                (target_letter_category upper_non_ascii letter) all))
   <= length all)%nat.
Proof.
  destruct (apply_limit_is_prefix limit
              (filter_links upper_non_ascii
                 (target_letter_category upper_non_ascii letter) all))
    as [k Hk].
  pose proof (filter_links_length
                (target_letter_category upper_non_ascii letter) all) as Hf.
  rewrite Hk, length_app in Hf. lia.
Qed.

(** X10. Tally accounting: when [main] gets past the index and reports a
    tally, the processed count and the error count add up to the number of
    entries selected by the letter filter and the limit, which is not zero:
    each selected entry is counted once, and a failed entry does not stop
    the run. *)
Theorem tally_counts_every_entry :
  forall e letter limit out all w processed errors w',
    main_after_index upper_non_ascii markdownify e letter limit out all w
    = (inr (Some (processed, errors)), w') ->
    let selected :=
      apply_limit limit
        (filter_links upper_non_ascii
           (target_letter_category upper_non_ascii letter) all) in
    (processed + errors = length selected)%nat
    /\ (0 < length selected <= length all)%nat.
Proof.
  intros e letter limit out all w processed errors w' H selected.
  pose proof (processed_length letter limit all) as Hle. fold selected in Hle.
  unfold main_after_index in H. fold selected in H.
  destruct all as [|g all]; [discriminate|].
  destruct selected as [|g' rest] eqn:Es; [discriminate|].
  unfold mbind, M_bind, mret, M_ret in H.
  destruct (loop e out (g' :: rest) 0 _ _ w) as [[x|c'] w1] eqn:El;
    [discriminate|].
  injection H as -> _. apply loop_tally in El. cbn [fst snd] in El.
  cbn [length] in *. lia.
Qed.

(** The requests and the pauses of one call. *)
Lemma save_counts e g base w :
  exists t,
    trace (snd (save e g base w)) = trace w ++ t
    /\ sleeps t = 0%nat /\ (fetches t <= 1)%nat
    /\ (forall s, fst (save e g base w) = inr (s, true) -> fetches t = 1%nat).
Proof.
  unfold_call g base p.
  split_cases; eexists; rewrite <- ?app_assoc;
    (split; [reflexivity|]); cbn; repeat split; try lia;
    intros s Hs; try discriminate; reflexivity.
Qed.

Lemma loop_bounds e base games :
  forall i total c w,
    (i + length games = total)%nat ->
    exists t,
      trace (snd (loop e base games i total c w)) = trace w ++ t
      /\ (fetches t <= length games)%nat
      /\ (sleeps t <= fetches t)%nat
      /\ (sleeps t <= length games - 1)%nat.
Proof.
  induction games as [|g rest IH]; intros i total c w Hlen.
  - exists []. cbn. rewrite app_nil_r. repeat split; lia.
  - cbn [process_games]. run_M.
    destruct (save_counts e g base w) as (t1 & Ht1 & Hs1 & Hf1 & Hrm).
    destruct (save e g base w) as [[x | [s rm]] w1] eqn:Es; cbn [fst snd] in *.
    + exists t1. cbn [length]. repeat split; try assumption; lia.
    + cbn [length] in Hlen.
      destruct (rm && (Z.of_nat i <? Z.of_nat total - 1)%Z) eqn:Ec;
        cbn beta iota.
      * apply andb_true_iff in Ec as [-> Hi]. apply Z.ltb_lt in Hi.
        specialize (Hrm s eq_refl).
        edestruct (IH (S i) total) as (t2 & Ht2 & Hf2 & Hsf2 & Hs2); [lia|].
        rewrite Ht2. cbn [trace]. rewrite Ht1.
        exists (t1 ++ EvSleep :: t2). split; [now rewrite <- !app_assoc|].
        rewrite !fetches_app, !sleeps_app.
        change (fetches (EvSleep :: t2)) with (fetches t2).
        change (sleeps (EvSleep :: t2)) with (S (sleeps t2)).
        cbn [length]. repeat split; lia.
      * edestruct (IH (S i) total) as (t2 & Ht2 & Hf2 & Hsf2 & Hs2); [lia|].
        rewrite Ht2, Ht1.
        exists (t1 ++ t2). split; [now rewrite <- !app_assoc|].
        rewrite !fetches_app, !sleeps_app.
        cbn [length]. repeat split; lia.
Qed.

(** X11. Requests and pauses are bounded: past the index, a run of [main]
    makes at most one request per catalog entry, never more pauses than
    requests, and fewer pauses than catalog entries; a limit that is not
    negative also caps the number of page requests. *)
Theorem requests_bounded :
  forall e letter limit out all w,
  exists t,
    trace (snd (main_after_index upper_non_ascii markdownify e letter limit
                  out all w)) = trace w ++ t
    /\ (fetches t <= length all)%nat
    /\ (sleeps t <= fetches t)%nat
    /\ (sleeps t <= length all - 1)%nat
    /\ (forall n, limit = Some n -> (0 <= n)%Z -> (fetches t <= Z.to_nat n)%nat).
Proof.
  intros e letter limit out all w.
  pose proof (processed_length letter limit all) as Hle.
  assert (Hcap : forall n,
            limit = Some n -> (0 <= n)%Z ->
            (length (apply_limit limit
                       (filter_links upper_non_ascii
                          (target_letter_category upper_non_ascii letter) all))
             <= Z.to_nat n)%nat).
  { intros n -> Hn. now apply apply_limit_cap. }
  unfold main_after_index.
  set (selected := apply_limit limit _) in *.
  assert (Hnone : exists t : list event,
            trace w = trace w ++ t /\ (fetches t <= length all)%nat
            /\ (sleeps t <= fetches t)%nat /\ (sleeps t <= length all - 1)%nat
            /\ (forall n, limit = Some n -> (0 <= n)%Z ->
                          (fetches t <= Z.to_nat n)%nat)).
  { exists []. rewrite app_nil_r. cbn. repeat split; try lia. }
  destruct all as [|g all]; [exact Hnone|].
  destruct selected as [|g' rest] eqn:Es; [exact Hnone|].
  unfold mbind, M_bind, mret, M_ret.
  destruct (loop_bounds e out (g' :: rest) 0 (length (g' :: rest)) (0, 0)%nat w
              eq_refl) as (t & Ht & Hf & Hsf & Hs).
  destruct (loop e out (g' :: rest) 0 _ _ w) as [[x|c'] w1];
    cbn [snd] in *; exists t; (split; [exact Ht|]);
    repeat split; try lia;
    intros n Hl Hn; specialize (Hcap n Hl Hn); lia.
Qed.

Lemma entries_from_anchors tree links g :
  links `prefix_of` omap link_entry (category_links tree) ->
  g ∈ links ->
  exists link h,
    link ∈ category_links tree /\ href link = Some h /\ h <> []
    /\ g = GameInfo (BASE_URL ++ h) (Some (PyStr (text_content link))).
Proof.
  intros [k Hk] Hg.
  assert (Hin : g ∈ omap link_entry (category_links tree)).
  { rewrite Hk. apply elem_of_app. now left. }
  apply list_elem_of_omap in Hin as (link & Hl & He).
  unfold link_entry in He.
  destruct (href link) as [[|c h]|] eqn:Eh; try discriminate.
  injection He as <-.
  exists link, (c :: h). repeat split; try assumption. discriminate.
Qed.

(** X12. [get_game_links] never raises, makes exactly one request and
    leaves the disk alone. A failed fetch gives the empty catalog.
    Otherwise the catalog is a prefix of the entries of the anchors, in
    document order (all of them when the limit is absent or zero), and each
    entry comes from an anchor with a non-empty [href]: its URL is the base
    URL followed by that [href], and its title is the text of the anchor. *)
Theorem get_game_links_entries :
  forall e url limit w,
  exists links,
    get_game_links category_links e url limit w
    = (inr links,
       log (EvFetch url (bool_decide (is_Some (http_get e (trace w) url)))) w)
    /\ (http_get e (trace w) url = None -> links = [])
    /\ (forall tree,
          http_get e (trace w) url = Some tree ->
          links `prefix_of` omap link_entry (category_links tree)
          /\ (limit = None \/ limit = Some 0%Z ->
              links = omap link_entry (category_links tree)))
    /\ (forall g,
          g ∈ links ->
          exists tree link h,
            http_get e (trace w) url = Some tree
            /\ link ∈ category_links tree
            /\ href link = Some h /\ h <> []
            /\ g = GameInfo (BASE_URL ++ h) (Some (PyStr (text_content link)))).
Proof.
  intros e url limit w. unfold get_game_links. run_M.
  destruct (http_get e (trace w) url) as [tree|] eqn:Eg; cbn beta iota.
  - assert (Hfin : forall links,
              links `prefix_of` omap link_entry (category_links tree) ->
              (limit = None \/ limit = Some 0%Z ->
               links = omap link_entry (category_links tree)) ->
              (Some tree = None -> links = [])
              /\ (forall tree',
                    Some tree = Some tree' ->
                    links `prefix_of` omap link_entry (category_links tree')
                    /\ (limit = None \/ limit = Some 0%Z ->
                        links = omap link_entry (category_links tree')))
              /\ (forall g,
                    g ∈ links ->
                    exists tree' link h,
                      Some tree = Some tree'
                      /\ link ∈ category_links tree'
                      /\ href link = Some h /\ h <> []
                      /\ g = GameInfo (BASE_URL ++ h)
                               (Some (PyStr (text_content link))))).
    { intros links Hp Hall. split; [discriminate|]. split.
      - intros tree' [= <-]. split; assumption.
      - intros g Hg.
        destruct (entries_from_anchors tree links g Hp Hg)
          as (link & h & H1 & H2 & H3 & H4).
        exists tree, link, h. repeat split; assumption. }
    destruct limit as [n|]; [destruct (Z.eqb_spec n 0) as [->|Hn]|];
      cbn beta iota; eexists; (split; [reflexivity|]); apply Hfin;
      try reflexivity; try apply slice_to_prefix.
    intros [H | H]; congruence.
  - exists []. split; [reflexivity|]. split; [reflexivity|]. split.
    + discriminate.
    + intros g Hg. now apply elem_of_nil in Hg.
Qed.

(** X13. A run without a catalog stops cleanly: when the output directory
    is already there, and the fetch of the index fails or the index has no
    anchor with an [href], [main] returns after two effects only (ensuring
    the output directory and the one request for the index): no page is
    requested, nothing is written, and the disk is left as it was. *)
Theorem empty_catalog_stops_run :
  forall e letter limit out w,
    fs w !! out = Some Dir ->
    (http_get e (trace w ++ [EvMakedirs out]) INDEX_URL = None
     \/ exists tree,
          http_get e (trace w ++ [EvMakedirs out]) INDEX_URL = Some tree
          /\ omap link_entry (category_links tree) = []) ->
    exists ok w',
      main_with_index upper_non_ascii markdownify category_links
        e letter limit out w = (inr None, w')
      /\ trace w' = trace w ++ [EvMakedirs out; EvFetch INDEX_URL ok]
      /\ fs w' = fs w.
Proof.
  intros e letter limit out w Hout Hidx.
  unfold main_with_index, get_game_links, main_after_index. run_M.
  rewrite Hout. cbn [fs trace].
  destruct Hidx as [-> | (tree & -> & ->)]; cbn beta iota;
    eexists _, _; rewrite <- ?app_assoc;
    (split; [reflexivity|]); (split; reflexivity).
Qed.

(** After a call that returns, the bucket directory is a directory. *)
Lemma save_leaves_dir e g base w r w1 :
  save e g base w = (inr r, w1) ->
  fs w1 !! output_dir (precompute g base) = Some Dir.
Proof.
  pose proof (filepath_not_dir upper_non_ascii g base) as Hne.
  unfold_call g base p.
  assert (Hne' : output_dir p <> output_filepath p) by congruence.
  destruct (fs w !! output_dir p) as [[|t]|] eqn:Ed; cbn [fs trace];
    [ | discriminate | ];
    split_cases; intros [= <- <-]; cbn [fs];
    rewrite ?lookup_delete_ne, ?lookup_insert_ne by assumption;
    first [exact Ed | apply lookup_insert_eq].
Qed.

(** X16. A leftover is taken for a finished document: whenever a call
    returns, with success or with failure, and something stands at the
    destination afterwards (a partly written file that was not removed,
    for one), the next call on the same entry returns (true, false) and
    makes no request, so what was left is never replaced. *)
Theorem leftover_taken_for_success :
  forall e g base w r w1,
    save e g base w = (inr r, w1) ->
    is_Some (fs w1 !! output_filepath (precompute g base)) ->
    exists w2,
      save e g base w1 = (inr (true, false), w2)
      /\ fetches (trace w2) = fetches (trace w1)
      /\ fs w2 !! output_filepath (precompute g base)
         = fs w1 !! output_filepath (precompute g base).
Proof.
  intros e g base w r w1 Hrun Hleft.
  apply save_leaves_dir in Hrun.
  destruct (save_skips upper_non_ascii markdownify e g base w1 Hleft)
    as (fs' & Hrun2 & Hkeep & _).
  { intros t. rewrite Hrun. discriminate. }
  eexists. split; [exact Hrun2|]. cbn [fs trace]. split; [|exact Hkeep].
  rewrite !fetches_app. cbn. lia.
Qed.

(** X17. A blocked bucket aborts the run: when a regular file stands where
    the bucket directory of an entry should be, the exception of
    [os.makedirs] is not caught, so the loop stops at that entry after this
    one effect; no later entry is attempted and nothing is counted. *)
Theorem blocked_bucket_aborts_run :
  forall e base g rest i total counts w t,
    fs w !! output_dir (precompute g base) = Some (File t) ->
    loop e base (g :: rest) i total counts w
    = (inl (FileExistsError (output_dir (precompute g base))),
       log (EvMakedirs (output_dir (precompute g base))) w).
Proof.
  intros e base g rest i total counts w t Hblocked.
  cbn [process_games].
  unfold mbind at 1. unfold M_bind at 1.
  assert (Hsave : save e g base w
                  = (inl (FileExistsError (output_dir (precompute g base))),
                     log (EvMakedirs (output_dir (precompute g base))) w)).
  { revert Hblocked. unfold_call g base p. now intros ->. }
  now rewrite Hsave.
Qed.

(** The existence check and the requests of one call that returns. *)
Lemma save_checked e g base w s rm w1 :
  save e g base w = (inr (s, rm), w1) ->
  exists t,
    trace w1 = trace w ++ t
    /\ checked_paths t = [output_filepath (precompute g base)]
    /\ fetches t = Nat.b2n rm
    /\ (s = false -> rm = true).
Proof.
  unfold_call g base p.
  split_cases; intros H; try discriminate H; injection H as <- <- <-;
    eexists; rewrite <- ?app_assoc;
    (split; [reflexivity|]); repeat split; try reflexivity;
    intros E; try discriminate E; reflexivity.
Qed.

Lemma checked_paths_app a b :
  checked_paths (a ++ b) = checked_paths a ++ checked_paths b.
Proof. apply omap_app. Qed.

Lemma loop_order e base games :
  forall i total c w c' w',
    loop e base games i total c w = (inr c', w') ->
    exists t,
      trace w' = trace w ++ t
      /\ checked_paths t
         = List.map (fun g => output_filepath (precompute g base)) games
      /\ (snd c' <= snd c + fetches t)%nat
      /\ (fetches t <= length games)%nat.
Proof.
  induction games as [|g rest IH]; intros i total c w c' w' H.
  - cbn in H. injection H as <- <-. exists []. rewrite app_nil_r.
    cbn. repeat split; lia.
  - cbn [process_games] in H. run_M.
    destruct (save e g base w) as [[x | [s rm]] w1] eqn:Es; [discriminate|].
    apply save_checked in Es as (t1 & Ht1 & Hc1 & Hf1 & Hs1).
    destruct (rm && (Z.of_nat i <? Z.of_nat total - 1)%Z); cbn beta iota in H;
      apply IH in H as (t2 & Ht2 & Hc2 & He2 & Hf2); cbn [trace] in Ht2;
      rewrite Ht1 in Ht2.
    + exists (t1 ++ EvSleep :: t2). split; [now rewrite <- !app_assoc in *|].
      rewrite checked_paths_app, fetches_app.
      change (checked_paths (EvSleep :: t2)) with (checked_paths t2).
      change (fetches (EvSleep :: t2)) with (fetches t2).
      rewrite Hc1, Hc2, Hf1. cbn [List.map app length].
      split; [reflexivity|].
      destruct s, rm; cbn [fst snd Nat.b2n] in *;
        try (specialize (Hs1 eq_refl); discriminate); split; lia.
    + exists (t1 ++ t2). split; [now rewrite <- !app_assoc in *|].
      rewrite checked_paths_app, fetches_app.
      rewrite Hc1, Hc2, Hf1. cbn [List.map app length].
      split; [reflexivity|].
      destruct s, rm; cbn [fst snd Nat.b2n] in *;
        try (specialize (Hs1 eq_refl); discriminate); split; lia.
Qed.

(** X18. Entries are attempted once each, in catalog order: in a run of the
    loop that ends with a tally, the destinations whose existence is
    checked are exactly the destinations of the entries, one check per
    entry and in the order of the list. *)
Theorem entries_checked_in_order :
  forall e base games c w c' w',
    loop e base games 0 (length games) c w = (inr c', w') ->
    exists t,
      trace w' = trace w ++ t
      /\ checked_paths t
         = List.map (fun g => output_filepath (precompute g base)) games.
Proof.
  intros e base games c w c' w' H.
  apply loop_order in H as (t & Ht & Hc & _).
  exists t. split; assumption.
Qed.

(** X3. The count limit is applied after the letter filter. In a run of
    [main] that returns, with a limit that is not negative, the
    destinations whose existence is checked are those of the first [limit]
    entries of the letter-filtered catalog, one check for each and in
    catalog order: the entries beyond the limit and the entries of other
    letters are not touched. *)
Theorem filter_then_limit :
  forall e letter limit out all w r w',
    (0 <= limit)%Z ->
    main_after_index upper_non_ascii markdownify e letter (Some limit) out all w
      = (inr r, w') ->
    exists t,
      trace w' = trace w ++ t
      /\ checked_paths t
         = List.map (fun g => output_filepath (precompute g out))
             (take (Z.to_nat limit)
                (filter_links upper_non_ascii
                   (target_letter_category upper_non_ascii letter) all)).
Proof.
  clear category_links.
  intros e letter limit out all w r w' Hl.
  unfold main_after_index.
  set (kept := filter_links upper_non_ascii
                 (target_letter_category upper_non_ascii letter) all).
  assert (Hsel : apply_limit (Some limit) kept = take (Z.to_nat limit) kept).
  { unfold apply_limit, slice_to.
    destruct (Z.ltb_spec limit (Z.of_nat (length kept))).
    - destruct (Z.ltb_spec limit 0); [lia | reflexivity].
    - symmetry. apply take_ge. lia. }
  rewrite Hsel.
  assert (Hnil : all = [] -> take (Z.to_nat limit) kept = []).
  { intros ->. subst kept. unfold filter_links.
    destruct (target_letter_category upper_non_ascii letter) as [[|? ?]|];
      cbn [List.filter]; apply take_nil. }
  destruct all as [|g0 all0].
  - rewrite Hnil by reflexivity. intros [= <- <-].
    exists []. now rewrite app_nil_r.
  - clear Hnil.
    destruct (take (Z.to_nat limit) kept) as [|g sel] eqn:Esel.
    + intros [= <- <-]. exists []. now rewrite app_nil_r.
    + run_M.
      destruct (loop e out (g :: sel) 0 (length (g :: sel)) (0, 0)%nat w)
        as [[x | c'] w1] eqn:El; [discriminate|].
      intros [= <- <-].
      apply loop_order in El as (t & Ht & Hc & _).
      exists t. split; [exact Ht | exact Hc].
Qed.

(** X19. Every error costs a request: in a run of [main] that reports a
    tally, the number of errors is at most the number of page requests,
    which is at most the number of entries counted. No entry is counted as
    an error without a request having been made for it. *)
Theorem errors_bounded_by_requests :
  forall e letter limit out all w processed errors w',
    main_after_index upper_non_ascii markdownify e letter limit out all w
    = (inr (Some (processed, errors)), w') ->
    exists t,
      trace w' = trace w ++ t
      /\ (errors <= fetches t <= processed + errors)%nat.
Proof.
  intros e letter limit out all w processed errors w' H.
  unfold main_after_index in H.
  destruct all as [|g all]; [discriminate|].
  destruct (apply_limit limit _) as [|g' rest]; [discriminate|].
  unfold mbind, M_bind, mret, M_ret in H.
  destruct (loop e out (g' :: rest) 0 _ _ w) as [[x|c'] w1] eqn:El;
    [discriminate|].
  injection H as -> <-.
  pose proof (loop_tally _ _ _ _ _ _ _ _ _ El) as Ht.
  apply loop_order in El as (t & Htr & _ & He & Hf).
  exists t. split; [exact Htr|]. cbn [fst snd] in *. lia.
Qed.

Lemma str_upper_ascii c :
  c < 128 -> str_upper upper_non_ascii [c] = [ascii_upper c].
Proof.
  intros Hc. unfold str_upper, char_upper. cbn [flat_map].
  destruct (N.ltb_spec c 128); [|lia]. apply app_nil_r.
Qed.

Ltac split_leb :=
  repeat match goal with
         | |- context [(?a <=? ?b)] => destruct (N.leb_spec a b)
         | H : context [(?a <=? ?b)] |- _ => destruct (N.leb_spec a b)
         end;
  cbn [andb] in *.

(** X14. The bucket of an ASCII title: when the sanitized title begins with
    an ASCII character, the storage bucket is 0-9 for a digit, the
    upper-case letter for a letter of either case, and the underscore for
    anything else; it never holds a path separator. *)
Theorem bucket_of_ascii_title :
  forall g base c r,
    filename_safe_title (precompute g base) = c :: r ->
    c < 128 ->
    let bucket := target_subdir (precompute g base) in
    bucket = (if (48 <=? c) && (c <=? 57) then py "0-9"
              else if (65 <=? c) && (c <=? 90) then [c]
              else if (97 <=? c) && (c <=? 122) then [c - 32]
              else py "_")
    /\ slash ∉ bucket.
Proof.
  intros g base c r Hs Hc bucket. subst bucket. revert Hs.
  unfold save_precompute. cbn [filename_safe_title target_subdir].
  intros ->. rewrite str_upper_ascii by exact Hc.
  change (py "0") with [48]. change (py "9") with [57].
  change (py "A") with [65]. change (py "Z") with [90].
  rewrite !str_leb_single. unfold ascii_upper, slash.
  split.
  - split_leb; first [reflexivity | exfalso; lia].
  - intros Hin. apply list_elem_of_In in Hin. revert Hin.
    split_leb; cbn; intros Hin;
      repeat (destruct Hin as [Hin | Hin]); try discriminate; try lia;
      try contradiction.
Qed.

Lemma strip_ws_single c : is_space c = false -> strip_ws [c] = [c].
Proof.
  intros H. unfold strip_ws. cbn [lstrip_ws rev app]. rewrite H.
  cbn [lstrip_ws rev app]. now rewrite H.
Qed.

(** The category named by a one-character ASCII letter option. *)
Lemma letter_category_ascii c :
  c < 128 -> is_space c = false ->
  target_letter_category upper_non_ascii (Some [c])
  = Some (if c =? 48 then py "0-9"
          else if (65 <=? c) && (c <=? 90) then [c]
          else if (97 <=? c) && (c <=? 122) then [c - 32]
          else py "_").
Proof.
  intros Hc Hsp. unfold target_letter_category.
  rewrite strip_ws_single, str_upper_ascii by assumption.
  change (py "0") with [48]. change (py "A") with [65].
  change (py "Z") with [90]. cbn [length Nat.eqb andb].
  rewrite !str_leb_single. unfold ascii_upper.
  destruct (N.eqb_spec c 48) as [->|Hne]; [reflexivity|].
  case_bool_decide as Hd.
  - exfalso. injection Hd as Hd. revert Hd. split_leb; lia.
  - split_leb; first [reflexivity | exfalso; lia].
Qed.

(** X15. The letter option and the digits: a letter option of one ASCII
    character that is not whitespace names the bucket 0-9 only when it is
    the character 0; a letter of either case names its upper-case bucket,
    and every other such character, the digits 1 to 9 included, names the
    underscore bucket. Hence, for such an option, an entry whose sanitized
    title begins with a digit passes the filter if and only if the option
    is 0. *)
Theorem letter_option_and_digits :
  forall c g all d r,
    c < 128 -> is_space c = false ->
    sanitize_filename (default (PyStr (py "Unknown Title")) (gi_title g))
      = d :: r ->
    48 <= d <= 57 ->
    target_letter_category upper_non_ascii (Some [c])
    = Some (if c =? 48 then py "0-9"
            else if (65 <=? c) && (c <=? 90) then [c]
            else if (97 <=? c) && (c <=? 122) then [c - 32]
            else py "_")
    /\ (g ∈ filter_links upper_non_ascii
              (target_letter_category upper_non_ascii (Some [c])) all
        <-> g ∈ all /\ c = 48).
Proof.
  clear markdownify category_links.
  intros c g all d r Hc Hsp Hs Hd.
  pose proof (letter_category_ascii c Hc Hsp) as Hcat.
  split; [exact Hcat|]. rewrite Hcat.
  assert (Hg : current_category upper_non_ascii g = Some (py "0-9")).
  { unfold current_category. rewrite Hs, str_upper_ascii by lia.
    change (py "0") with [48]. change (py "9") with [57].
    rewrite !str_leb_single. unfold ascii_upper.
    split_leb; first [reflexivity | exfalso; lia]. }
  assert (Hkeep : forall cat,
            cat <> [] ->
            g ∈ filter_links upper_non_ascii (Some cat) all
            <-> g ∈ all /\ cat = py "0-9").
  { intros cat Hne. unfold filter_links.
    destruct cat as [|c0 cat]; [congruence|].
    rewrite !list_elem_of_In, filter_In, bool_decide_eq_true, Hg.
    split; intros [H1 H2]; (split; [exact H1 | congruence]). }
  destruct (N.eqb_spec c 48) as [->|Hne].
  - rewrite Hkeep by discriminate. tauto.
  - split_leb; rewrite Hkeep by discriminate;
      (split; [intros [_ Heq]; discriminate Heq | intros [_ Heq]; contradiction]).
Qed.

End CoverageFacts.

(** ** Concrete runs for the further properties *)

Lemma colliding_titles_second_skipped_witness :
  exists w2,
    run_save online (entry "Foo")
      (snd (run_save online (entry "Foo?") fresh))
    = (inr (true, false), w2)
    /\ fetches (trace w2) = 1%nat.
Proof.
  destruct (colliding_titles_second_skipped ascii_only_upper keep_html online
              (entry "Foo?") (entry "Foo") (py "out") fresh true
              (snd (run_save online (entry "Foo?") fresh)))
    as (w2 & Hrun & Hf & _);
    [vm_compute; reflexivity | vm_compute; reflexivity |].
  exists w2. split; [exact Hrun|]. rewrite Hf. vm_compute. reflexivity.
Defined.

Lemma save_written_content_witness :
  fs (snd (run_save online (entry "Foo") fresh)) !! py "out/F/Foo.md"
  = Some (File (py "<p>Hello</p>")).
Proof.
  destruct (save_written_content ascii_only_upper keep_html online
              (entry "Foo") (py "out") fresh
              (snd (run_save online (entry "Foo") fresh)))
    as (tree & Hg & Hfs & _); [vm_compute; reflexivity|].
  cbn [online http_get] in Hg. injection Hg as <-. exact Hfs.
Defined.

Lemma tally_counts_every_entry_witness :
  let run := main_after_index ascii_only_upper keep_html offline None None
               (py "out") [entry "Abc"; entry "Bar"] bar_saved in
  fst run = inr (Some (1, 1)%nat)
  /\ (1 + 1 = length [entry "Abc"; entry "Bar"])%nat.
Proof.
  intros run. split; [vm_compute; reflexivity|].
  refine (proj1 (tally_counts_every_entry ascii_only_upper keep_html offline
                   None None (py "out") [entry "Abc"; entry "Bar"] bar_saved
                   1 1 (snd run) _)).
  vm_compute. reflexivity.
Defined.

Lemma empty_catalog_stops_run_witness :
  exists ok w',
    main_with_index ascii_only_upper keep_html sample_anchors offline
      None None (py "out") bucket_ready = (inr None, w')
    /\ trace w' = [EvMakedirs (py "out"); EvFetch INDEX_URL ok]
    /\ fs w' = fs bucket_ready.
Proof.
  destruct (empty_catalog_stops_run ascii_only_upper keep_html sample_anchors
              offline None None (py "out") bucket_ready)
    as (ok & w' & Hrun & Htr & Hfs);
    [vm_compute; reflexivity | left; reflexivity |].
  exists ok, w'. split; [exact Hrun|]. split; [exact Htr | exact Hfs].
Defined.

(** The scenario of the specification: of the entries A1, B1, A2, B2, A3,
    the letter A and the limit 2 make the run attempt A1 and A2. *)
Lemma filter_then_limit_witness :
  let run := main_after_index ascii_only_upper keep_html online
               (Some (py "a")) (Some 2%Z) (py "out")
               [entry "A1"; entry "B1"; entry "A2"; entry "B2"; entry "A3"]
               fresh in
  fst run = inr (Some (2, 0)%nat)
  /\ checked_paths (trace (snd run)) = [py "out/A/A1.md"; py "out/A/A2.md"].
Proof.
  intros run. split; [vm_compute; reflexivity|].
  destruct (filter_then_limit ascii_only_upper keep_html online
              (Some (py "a")) 2 (py "out")
              [entry "A1"; entry "B1"; entry "A2"; entry "B2"; entry "A3"]
              fresh (Some (2, 0)%nat) (snd run))
    as (t & Ht & Hc); [lia | vm_compute; reflexivity |].
  rewrite Ht. cbn [fresh trace app]. rewrite Hc. vm_compute. reflexivity.
Defined.

Lemma bucket_of_ascii_title_witness :
  target_subdir (save_precompute ascii_only_upper (entry "foo") (py "out"))
  = py "F".
Proof.
  refine (proj1 (bucket_of_ascii_title ascii_only_upper (entry "foo") (py "out")
                   102 (py "oo") _ _)); [vm_compute; reflexivity | reflexivity].
Defined.

Lemma letter_option_and_digits_witness :
  target_letter_category ascii_only_upper (Some (py "5")) = Some (py "_")
  /\ entry "9lives"
       ∉ filter_links ascii_only_upper
           (target_letter_category ascii_only_upper (Some (py "5")))
           [entry "9lives"].
Proof.
  destruct (letter_option_and_digits ascii_only_upper 53 (entry "9lives")
              [entry "9lives"] 57 (py "lives"))
    as [Hcat Hkeep];
    [reflexivity | reflexivity | vm_compute; reflexivity | lia |].
  split; [exact Hcat|].
  intros Hin. apply Hkeep in Hin as [_ Hc]. discriminate Hc.
Defined.

Lemma leftover_taken_for_success_witness :
  let first := run_save odd_failure (entry "Foo") fresh in
  fst first = inr (false, true)
  /\ exists w2,
       run_save odd_failure (entry "Foo") (snd first) = (inr (true, false), w2)
       /\ fs w2 !! py "out/F/Foo.md" = Some (File []).
Proof.
  intros first. split; [vm_compute; reflexivity|].
  destruct (leftover_taken_for_success ascii_only_upper keep_html odd_failure
              (entry "Foo") (py "out") fresh (false, true) (snd first))
    as (w2 & Hrun & _ & Hfs);
    [vm_compute; reflexivity | exists (File []); vm_compute; reflexivity |].
  exists w2. split; [exact Hrun|].
  etransitivity; [exact Hfs|]. vm_compute. reflexivity.
Defined.

Lemma blocked_bucket_aborts_run_witness :
  process_games ascii_only_upper keep_html online (py "out")
    [entry "Foo"; entry "Bar"] 0 2 (0, 0)%nat bucket_blocked
  = (inl (FileExistsError (py "out/F")),
     World (fs bucket_blocked) [EvMakedirs (py "out/F")]).
Proof.
  exact (blocked_bucket_aborts_run ascii_only_upper keep_html online (py "out")
           (entry "Foo") [entry "Bar"] 0 2 (0, 0)%nat bucket_blocked
           (py "notes") eq_refl).
Defined.

Lemma entries_checked_in_order_witness :
  exists t,
    trace (snd (process_games ascii_only_upper keep_html online (py "out")
                  [entry "Abc"; entry "Bar"] 0 2 (0, 0)%nat bar_saved))
    = t
    /\ checked_paths t = [py "out/A/Abc.md"; py "out/B/Bar.md"].
Proof.
  destruct (entries_checked_in_order ascii_only_upper keep_html online
              (py "out") [entry "Abc"; entry "Bar"] (0, 0)%nat bar_saved
              (2, 0)%nat
              (snd (process_games ascii_only_upper keep_html online (py "out")
                      [entry "Abc"; entry "Bar"] 0 2 (0, 0)%nat bar_saved)))
    as (t & Ht & Hc); [vm_compute; reflexivity|].
  exists t. split; [exact Ht | exact Hc].
Defined.

Lemma errors_bounded_by_requests_witness :
  exists t,
    trace (snd (main_after_index ascii_only_upper keep_html offline None None
                  (py "out") [entry "Abc"; entry "Bar"] bar_saved)) = t
    /\ (1 <= fetches t <= 1 + 1)%nat.
Proof.
  destruct (errors_bounded_by_requests ascii_only_upper keep_html offline
              None None (py "out") [entry "Abc"; entry "Bar"] bar_saved 1 1
              (snd (main_after_index ascii_only_upper keep_html offline None
                      None (py "out") [entry "Abc"; entry "Bar"] bar_saved)))
    as (t & Ht & Hb); [vm_compute; reflexivity|].
  exists t. split; [exact Ht | exact Hb].
Defined.
